(** * jobocron/log: the asynchronous structured logger

    A shallow embedding of [log/log.go]: the [Entry] record and its pool,
    [resetEntry], the key/value walk of [Logger.log], the batch writer over a
    [bufio.Writer], [Close], and the goroutines of the logger as an
    interleaving step function. *)

From Stdlib Require Import ZArith Ascii String List Lia DecimalString.
From stdpp Require Import base option list gmap strings sorting.

Local Open Scope string_scope.
Local Open Scope Z_scope.
Local Open Scope list_scope.

(** * The model *)

(** ** Values of type [interface{}]

    The dynamic types a caller of [log] passes as keys and values.  [VFunc]
    stands for a function value (the middleware passes [gin.Recovery()], a
    [gin.HandlerFunc]), which [json.Marshal] refuses. *)
Inductive Value : Type :=
| VNil
| VBool (b : bool)
| VInt (n : Z)
| VStr (s : string)
| VFunc.

(** ** Entry *)

(** [time.Time] as nanoseconds since the zero time (January 1, year 1, UTC). *)
Definition zeroTime : Z := 0.

Record Entry : Type := mkEntry {
  Time : Z;
  Level : string;
  Message : string;
  Data : gmap string Value
}.

(** [entryPool.New]: [&Entry{Data: make(map[string]interface{})}]. *)
Definition newEntry : Entry :=
  {| Time := zeroTime; Level := ""; Message := ""; Data := ∅ |}.

(** [for k := range e.Data { delete(e.Data, k) }]: the keys of the map are
    visited one by one and each is deleted from the map. *)
Definition clearData (m : gmap string Value) : gmap string Value :=
  foldl (λ acc k, delete k acc) m (map fst (map_to_list m)).

Definition resetEntry (e : Entry) : Entry :=
  {| Time := zeroTime; Level := ""; Message := ""; Data := clearData (Data e) |}.

(** ** The key/value walk of [Logger.log]

    [for i := 0; i < len(kvs); i += 2 { if i+1 < len(kvs) { key, ok :=
    kvs[i].(string); if !ok { continue }; e.Data[key] = kvs[i+1] } }] *)
Fixpoint kvsLoop (fuel i : nat) (kvs : list Value) (data : gmap string Value)
  : gmap string Value :=
  match fuel with
  | O => data
  | S fuel' =>
      if (i <? length kvs)%nat then
        let data' :=
          if (i + 1 <? length kvs)%nat then
            match kvs !! i with
            | Some (VStr key) =>
                match kvs !! (i + 1)%nat with
                | Some v => <[key := v]> data
                | None => data
                end
            | _ => data
            end
          else data in
        kvsLoop fuel' (i + 2) kvs data'
      else data
  end.

(** The loop runs at most [len(kvs)] times. *)
Definition recordKeyvals (kvs : list Value) (data : gmap string Value)
  : gmap string Value :=
  kvsLoop (length kvs) 0 kvs data.

(** The part of [log] before the closed check: reset the acquired entry, stamp
    it and fill the mapping. *)
Definition fillEntry (now : Z) (level msg : string) (kvs : list Value)
    (e : Entry) : Entry :=
  let e0 := resetEntry e in
  {| Time := now; Level := level; Message := msg;
     Data := recordKeyvals kvs (Data e0) |}.

(** The walk as the specification words it: the list taken two at a time,
    a pair kept when its first element is a string. *)
Fixpoint pairsOf (kvs : list Value) : list (Value * Value) :=
  match kvs with
  | k :: v :: rest => (k, v) :: pairsOf rest
  | _ => []
  end.

Definition recordPair (m : gmap string Value) (p : Value * Value)
  : gmap string Value :=
  match p.1 with
  | VStr key => <[key := p.2]> m
  | _ => m
  end.

Definition recordPairs (ps : list (Value * Value)) (m : gmap string Value)
  : gmap string Value :=
  foldl recordPair m ps.

(** ** [time.Time] in JSON *)

Definition bytes : Type := list ascii.

Definition digitChar (d : Z) : ascii := ascii_of_N (Z.to_N (48 + d mod 10)).

(** [n] in exactly [width] decimal digits. *)
Fixpoint padDigits (width : nat) (n : Z) (acc : bytes) : bytes :=
  match width with
  | O => acc
  | S w => padDigits w (n / 10) (digitChar n :: acc)
  end.

Fixpoint stripZeros (rev_digits : bytes) : bytes :=
  match rev_digits with
  | "0"%char :: r => stripZeros r
  | _ => rev_digits
  end.

(** Year, month and day of a day count taken from January 1, year 1. *)
Definition civilOfDays (days : Z) : Z * Z * Z :=
  let z := days + 306 in
  let era := z / 146097 in
  let doe := z - era * 146097 in
  let yoe := (doe - doe / 1460 + doe / 36524 - doe / 146096) / 365 in
  let doy := doe - (365 * yoe + yoe / 4 - yoe / 100) in
  let mp := (5 * doy + 2) / 153 in
  let d := doy - (153 * mp + 2) / 5 + 1 in
  let m := if mp <? 10 then mp + 3 else mp - 9 in
  let y := yoe + era * 400 + (if m <=? 2 then 1 else 0) in
  (y, m, d).

Definition formatRFC3339Nano (t : Z) : option bytes :=
  let secs := t / 1000000000 in
  let nsec := t mod 1000000000 in
  let days := secs / 86400 in
  let rem := secs mod 86400 in
  let '(y, m, d) := civilOfDays days in
  if (y <? 0) || (9999 <? y) then None
  else
    let frac :=
      if nsec =? 0 then []
      else "."%char :: rev (stripZeros (rev (padDigits 9 nsec []))) in
    Some (padDigits 4 y [] ++ "-"%char :: padDigits 2 m [] ++
          "-"%char :: padDigits 2 d [] ++
          "T"%char :: padDigits 2 (rem / 3600) [] ++
          ":"%char :: padDigits 2 (rem mod 3600 / 60) [] ++
          ":"%char :: padDigits 2 (rem mod 60) [] ++ frac ++ ["Z"%char]).

(** The double quote. *)
Definition quote : ascii := ascii_of_N 34.

Definition marshalTime (t : Z) : option bytes :=
  s ← formatRFC3339Nano t; Some (quote :: s ++ [quote]).

(** ** [encoding/json]: strings *)

Definition hexChar (d : N) : ascii :=
  if (d <? 10)%N then ascii_of_N (48 + d) else ascii_of_N (87 + d).

(** A backslash, [u] and four hexadecimal digits. *)
Definition escapeU (hex4 : string) : bytes :=
  "\"%char :: "u"%char :: list_ascii_of_string hex4.

Definition escapeU00 (n : N) : bytes :=
  "\"%char :: "u"%char :: "0"%char :: "0"%char ::
  [hexChar (n / 16); hexChar (n mod 16)].

Definition escapeAscii (c : ascii) : bytes :=
  let n := N_of_ascii c in
  if (n =? 34)%N then ["\"%char; quote]
  else if (n =? 92)%N then list_ascii_of_string "\\"
  else if (n =? 8)%N then list_ascii_of_string "\b"
  else if (n =? 12)%N then list_ascii_of_string "\f"
  else if (n =? 10)%N then list_ascii_of_string "\n"
  else if (n =? 13)%N then list_ascii_of_string "\r"
  else if (n =? 9)%N then list_ascii_of_string "\t"
  else if (n <? 32)%N then escapeU00 n
  else if (n =? 60)%N || (n =? 62)%N || (n =? 38)%N then escapeU00 n
  else [c].

Definition inRange (lo hi : N) (c : ascii) : bool :=
  let n := N_of_ascii c in (lo <=? n)%N && (n <=? hi)%N.

(** [utf8.DecodeRuneInString] as far as [appendString] needs it: the number
    of bytes of the valid sequence at the head of [s], or [0]. *)
Definition utf8Size (s : bytes) : nat :=
  match s with
  | c0 :: c1 :: rest =>
      let n := N_of_ascii c0 in
      if inRange 194 223 c0 then
        if inRange 128 191 c1 then 2%nat else 0%nat
      else if inRange 224 239 c0 then
        let lo := if (n =? 224)%N then 160%N else 128%N in
        let hi := if (n =? 237)%N then 159%N else 191%N in
        match rest with
        | c2 :: _ =>
            if inRange lo hi c1 && inRange 128 191 c2 then 3%nat else 0%nat
        | [] => 0%nat
        end
      else if inRange 240 244 c0 then
        let lo := if (n =? 240)%N then 144%N else 128%N in
        let hi := if (n =? 244)%N then 143%N else 191%N in
        match rest with
        | c2 :: c3 :: _ =>
            if inRange lo hi c1 && inRange 128 191 c2 && inRange 128 191 c3
            then 4%nat else 0%nat
        | _ => 0%nat
        end
      else 0%nat
  | _ => 0%nat
  end.

(** U+2028 and U+2029 are E2 80 A8 and E2 80 A9. *)
Definition lineSeparator (s : bytes) : option bytes :=
  match s with
  | c0 :: c1 :: c2 :: _ =>
      if (N_of_ascii c0 =? 226)%N && (N_of_ascii c1 =? 128)%N then
        if (N_of_ascii c2 =? 168)%N then Some (escapeU "2028")
        else if (N_of_ascii c2 =? 169)%N then Some (escapeU "2029")
        else None
      else None
  | _ => None
  end.

(** [skip] counts the continuation bytes of the sequence at hand, copied
    when [copy] is set and dropped after an escaped separator. *)
Fixpoint escapeFrom (skip : nat) (copy : bool) (s : bytes) : bytes :=
  match s with
  | [] => []
  | c :: rest =>
      match skip with
      | S k => (if copy then [c] else []) ++ escapeFrom k copy rest
      | O =>
          if (N_of_ascii c <? 128)%N then
            escapeAscii c ++ escapeFrom 0 true rest
          else
            match utf8Size s with
            | O => escapeU "fffd" ++ escapeFrom 0 true rest
            | S k =>
                match lineSeparator s with
                | Some esc => esc ++ escapeFrom k false rest
                | None => c :: escapeFrom k true rest
                end
            end
      end
  end.

Definition appendString (s : string) : bytes :=
  quote :: escapeFrom 0 true (list_ascii_of_string s) ++ [quote].

(** ** [encoding/json]: values, maps and the entry *)

Definition appendInt (n : Z) : bytes :=
  list_ascii_of_string (NilZero.string_of_int (Z.to_int n)).

Definition marshalValue (v : Value) : option bytes :=
  match v with
  | VNil => Some (list_ascii_of_string "null")
  | VBool true => Some (list_ascii_of_string "true")
  | VBool false => Some (list_ascii_of_string "false")
  | VInt n => Some (appendInt n)
  | VStr s => Some (appendString s)
  | VFunc => None
  end.

Definition keyLe (p q : string * Value) : Prop := String.leb p.1 q.1 = true.

Global Instance keyLe_dec p q : Decision (keyLe p q).
Proof. unfold keyLe. apply _. Defined.

Definition sortedPairs (m : gmap string Value) : list (string * Value) :=
  merge_sort keyLe (map_to_list m).

Fixpoint marshalMembers (first : bool) (ps : list (string * Value))
  : option bytes :=
  match ps with
  | [] => Some []
  | (k, v) :: rest =>
      d ← marshalValue v;
      r ← marshalMembers false rest;
      Some ((if first then [] else [","%char]) ++
            appendString k ++ ":"%char :: d ++ r)
  end.

Definition marshalMap (m : gmap string Value) : option bytes :=
  body ← marshalMembers true (sortedPairs m);
  Some ("{"%char :: body ++ ["}"%char]).

(** The name of a struct field, quoted, and the colon. *)
Definition fieldName (tag : string) : bytes :=
  quote :: list_ascii_of_string tag ++ [quote; ":"%char].

(** [json.Marshal(entry)]: the fields in declaration order under their tags. *)
Definition marshalEntry (e : Entry) : option bytes :=
  t ← marshalTime (Time e);
  d ← marshalMap (Data e);
  Some ("{"%char :: fieldName "time" ++ t ++
        ","%char :: fieldName "level" ++ appendString (Level e) ++
        ","%char :: fieldName "message" ++ appendString (Message e) ++
        ","%char :: fieldName "data" ++ d ++ ["}"%char]).

(** ** [encoding/json]: reading a record back *)

#[warnings="-register-all"]
Inductive JSON : Type :=
| JNull
| JBool (b : bool)
| JNum (n : Z)
| JStr (s : string)
| JArr (elements : list JSON)
| JObj (members : list (string * JSON)).

Definition isSpace (c : ascii) : bool :=
  let n := N_of_ascii c in
  (n =? 32)%N || (n =? 9)%N || (n =? 10)%N || (n =? 13)%N.

Fixpoint skipSpace (s : bytes) : bytes :=
  match s with
  | c :: r => if isSpace c then skipSpace r else s
  | [] => []
  end.

Definition hexVal (c : ascii) : option N :=
  let n := N_of_ascii c in
  if (48 <=? n)%N && (n <=? 57)%N then Some (n - 48)%N
  else if (97 <=? n)%N && (n <=? 102)%N then Some (n - 87)%N
  else if (65 <=? n)%N && (n <=? 70)%N then Some (n - 55)%N
  else None.

(** The UTF-8 bytes of a code point of the basic plane; a surrogate becomes
    U+FFFD. *)
Definition utf8Encode (cp : N) : bytes :=
  if (cp <? 128)%N then [ascii_of_N cp]
  else if (cp <? 2048)%N then
    [ascii_of_N (192 + cp / 64); ascii_of_N (128 + cp mod 64)]
  else if (55296 <=? cp)%N && (cp <=? 57343)%N then
    [ascii_of_N 239; ascii_of_N 191; ascii_of_N 189]
  else
    [ascii_of_N (224 + cp / 4096); ascii_of_N (128 + (cp / 64) mod 64);
     ascii_of_N (128 + cp mod 64)].

Definition unescape (c : ascii) : option ascii :=
  let n := N_of_ascii c in
  if (n =? 34)%N || (n =? 92)%N || (n =? 47)%N then Some c
  else if (n =? 98)%N then Some (ascii_of_N 8)
  else if (n =? 102)%N then Some (ascii_of_N 12)
  else if (n =? 110)%N then Some (ascii_of_N 10)
  else if (n =? 114)%N then Some (ascii_of_N 13)
  else if (n =? 116)%N then Some (ascii_of_N 9)
  else None.

(** The text of a string after its opening quote, and what follows the
    closing quote. *)
Fixpoint unquote (s : bytes) : option (bytes * bytes) :=
  match s with
  | [] => None
  | c :: rest =>
      if (N_of_ascii c =? 34)%N then Some ([], rest)
      else if (N_of_ascii c =? 92)%N then
        match rest with
        | e :: rest1 =>
            if (N_of_ascii e =? 117)%N then
              match rest1 with
              | h1 :: h2 :: h3 :: h4 :: rest2 =>
                  d1 ← hexVal h1; d2 ← hexVal h2;
                  d3 ← hexVal h3; d4 ← hexVal h4;
                  '(out, r) ← unquote rest2;
                  Some (utf8Encode (((d1 * 16 + d2) * 16 + d3) * 16 + d4) ++ out,
                        r)
              | _ => None
              end
            else
              d ← unescape e;
              '(out, r) ← unquote rest1;
              Some (d :: out, r)
        | [] => None
        end
      else if (N_of_ascii c <? 32)%N then None
      else '(out, r) ← unquote rest; Some (c :: out, r)
  end.

Fixpoint digitsValue (acc : Z) (s : bytes) : Z * bytes :=
  match s with
  | c :: r =>
      let n := N_of_ascii c in
      if (48 <=? n)%N && (n <=? 57)%N
      then digitsValue (acc * 10 + Z.of_N (n - 48)) r
      else (acc, s)
  | [] => (acc, [])
  end.

Definition startsNumberTail (s : bytes) : bool :=
  match s with
  | c :: _ =>
      let n := N_of_ascii c in (n =? 46)%N || (n =? 101)%N || (n =? 69)%N
  | [] => false
  end.

Definition parseNumber (s : bytes) : option (JSON * bytes) :=
  let '(neg, s1) :=
    match s with
    | c :: r => if (N_of_ascii c =? 45)%N then (true, r) else (false, s)
    | [] => (false, s)
    end in
  let '(v, s2) := digitsValue 0 s1 in
  if bool_decide (s2 = s1) || startsNumberTail s2 then None
  else Some (JNum (if neg then - v else v), s2).

Definition expect (word : string) (s : bytes) : option bytes :=
  let w := list_ascii_of_string word in
  if bool_decide (take (length w) s = w) then Some (drop (length w) s)
  else None.

Fixpoint parseValue (fuel : nat) (s : bytes) {struct fuel}
  : option (JSON * bytes) :=
  match fuel with
  | O => None
  | S f =>
      match skipSpace s with
      | [] => None
      | c :: r =>
          let n := N_of_ascii c in
          if (n =? 123)%N then                       (* an object *)
            match skipSpace r with
            | c' :: r' =>
                if (N_of_ascii c' =? 125)%N then Some (JObj [], r')
                else parseMembers f (c' :: r') []
            | [] => None
            end
          else if (n =? 91)%N then                   (* an array *)
            match skipSpace r with
            | c' :: r' =>
                if (N_of_ascii c' =? 93)%N then Some (JArr [], r')
                else parseElements f (c' :: r') []
            | [] => None
            end
          else if (n =? 34)%N then
            '(b, r') ← unquote r; Some (JStr (string_of_list_ascii b), r')
          else if (n =? 116)%N then r' ← expect "rue" r; Some (JBool true, r')
          else if (n =? 102)%N then r' ← expect "alse" r; Some (JBool false, r')
          else if (n =? 110)%N then r' ← expect "ull" r; Some (JNull, r')
          else parseNumber (c :: r)
      end
  end
with parseMembers (fuel : nat) (s : bytes) (acc : list (string * JSON))
    {struct fuel} : option (JSON * bytes) :=
  match fuel with
  | O => None
  | S f =>
      match skipSpace s with
      | c :: r =>
          if (N_of_ascii c =? 34)%N then
            '(k, r1) ← unquote r;
            match skipSpace r1 with
            | c1 :: r2 =>
                if (N_of_ascii c1 =? 58)%N then
                  '(v, r3) ← parseValue f r2;
                  let acc' := acc ++ [(string_of_list_ascii k, v)] in
                  match skipSpace r3 with
                  | c3 :: r4 =>
                      if (N_of_ascii c3 =? 44)%N then parseMembers f r4 acc'
                      else if (N_of_ascii c3 =? 125)%N then Some (JObj acc', r4)
                      else None
                  | [] => None
                  end
                else None
            | [] => None
            end
          else None
      | [] => None
      end
  end
with parseElements (fuel : nat) (s : bytes) (acc : list JSON) {struct fuel}
  : option (JSON * bytes) :=
  match fuel with
  | O => None
  | S f =>
      '(v, r1) ← parseValue f s;
      match skipSpace r1 with
      | c :: r2 =>
          if (N_of_ascii c =? 44)%N then parseElements f r2 (acc ++ [v])
          else if (N_of_ascii c =? 93)%N then Some (JArr (acc ++ [v]), r2)
          else None
      | [] => None
      end
  end.

(** [json.Unmarshal(line, &v)] with [v] an [interface{}]. *)
Definition Unmarshal (line : bytes) : option JSON :=
  '(v, rest) ← parseValue (S (length line)) line;
  match skipSpace rest with [] => Some v | _ => None end.

(** An object as a [map[string]interface{}]: a later member replaces an
    earlier one of the same name. *)
Definition objectMap (members : list (string * JSON)) : gmap string JSON :=
  list_to_map (reverse members).

(** [v["data"].(map[string]interface{})] of a decoded record. *)
Definition dataOf (v : JSON) : option (gmap string JSON) :=
  match v with
  | JObj members =>
      match objectMap members !! "data" with
      | Some (JObj d) => Some (objectMap d)
      | _ => None
      end
  | _ => None
  end.

(** A value of the mapping as [Unmarshal] gives it back; an integer comes
    back as a [float64], so as another value. *)
Definition decoded (v : Value) : option JSON :=
  match v with
  | VNil => Some JNull
  | VBool b => Some (JBool b)
  | VStr s => Some (JStr s)
  | _ => None
  end.

(** ** The output sink and [bufio.Writer] *)

Inductive error : Type :=
| ErrShortWrite   (* io.ErrShortWrite *)
| ErrSink.        (* any other error of the sink *)

Global Instance error_eq_dec : EqDecision error.
Proof. solve_decision. Defined.

Record Sink : Type := mkSink {
  taken : bytes;
  room : option Z;
  fault : error
}.

Definition len (b : bytes) : Z := Z.of_nat (length b).

Definition sinkWrite (k : Sink) (p : bytes) : Sink * (Z * option error) :=
  match room k with
  | None => ({| taken := taken k ++ p; room := None; fault := fault k |},
             (len p, None))
  | Some r =>
      let n := Z.max 0 (Z.min r (len p)) in
      ({| taken := taken k ++ take (Z.to_nat n) p; room := Some (r - n);
          fault := fault k |},
       (n, if n <? len p then Some (fault k) else None))
  end.

Record Writer : Type := mkWriter {
  buf : bytes;          (* b.buf[0:b.n] *)
  Size : Z;             (* len(b.buf) *)
  werr : option error;  (* b.err *)
  wr : Sink             (* b.wr *)
}.

Definition Available (b : Writer) : Z := Size b - len (buf b).
Definition Buffered (b : Writer) : Z := len (buf b).

Definition Flush (b : Writer) : Writer * option error :=
  match werr b with
  | Some e => (b, Some e)
  | None =>
      if len (buf b) =? 0 then (b, None)
      else
        let '(k, (n, e)) := sinkWrite (wr b) (buf b) in
        let e' :=
          match e with
          | None => if n <? len (buf b) then Some ErrShortWrite else None
          | Some _ => e
          end in
        match e' with
        | Some _ =>
            ({| buf := drop (Z.to_nat n) (buf b); Size := Size b; werr := e';
                wr := k |}, e')
        | None =>
            ({| buf := []; Size := Size b; werr := None; wr := k |}, None)
        end
  end.

(** The loop of [Writer.Write]:
    [for len(p) > b.Available() && b.err == nil { ... }]. *)
Fixpoint writeLoop (fuel : nat) (b : Writer) (p : bytes) (nn : Z)
  : Writer * bytes * Z :=
  match fuel with
  | O => (b, p, nn)
  | S fuel' =>
      if (Available b <? len p) && bool_decide (werr b = None) then
        if Buffered b =? 0 then
          let '(k, (n, e)) := sinkWrite (wr b) p in
          writeLoop fuel'
            {| buf := buf b; Size := Size b; werr := e; wr := k |}
            (drop (Z.to_nat n) p) (nn + n)
        else
          let n := Z.max 0 (Z.min (Available b) (len p)) in
          let b1 := {| buf := buf b ++ take (Z.to_nat n) p; Size := Size b;
                       werr := werr b; wr := wr b |} in
          writeLoop fuel' (Flush b1).1 (drop (Z.to_nat n) p) (nn + n)
      else (b, p, nn)
  end.

(** A sink returns an error with every short count, so the loop is over after
    two rounds: the fuel is never used up ([writeLoop_exits]). *)
Definition Write (b : Writer) (p : bytes) : Writer * (Z * option error) :=
  let '(b1, p1, nn) := writeLoop (2 + length p) b p 0 in
  match werr b1 with
  | Some e => (b1, (nn, Some e))
  | None =>
      let n := Z.max 0 (Z.min (Available b1) (len p1)) in
      ({| buf := buf b1 ++ take (Z.to_nat n) p1; Size := Size b1;
          werr := None; wr := wr b1 |}, (nn + n, None))
  end.

Definition WriteByte (b : Writer) (c : ascii) : Writer * option error :=
  match werr b with
  | Some e => (b, Some e)
  | None =>
      let put (b : Writer) :=
        {| buf := buf b ++ [c]; Size := Size b; werr := werr b; wr := wr b |} in
      if Available b <=? 0 then
        let '(b1, e) := Flush b in
        match e with
        | Some _ => (b1, werr b1)
        | None => (put b1, None)
        end
      else (put b, None)
  end.

Definition defaultBufferSize : Z := 256 * 1024.
Definition maxEntrySize : Z := 1024 * 1024.

(** [bufio.NewWriterSize(output, defaultBufferSize)]. *)
Definition NewWriterSize (output : Sink) (n : Z) : Writer :=
  {| buf := []; Size := n; werr := None; wr := output |}.

(** [bytes.Buffer] takes every write. *)
Definition bytesBuffer : Sink := {| taken := []; room := None; fault := ErrSink |}.

(** [io.Discard] takes every write too; [taken] is then what it was given,
    not what it keeps. *)
Definition ioDiscard : Sink := bytesBuffer.

(** A sink that fails once it has taken [n] bytes. *)
Definition limitedSink (n : Z) : Sink :=
  {| taken := []; room := Some n; fault := ErrSink |}.

(** ** The logger and what its goroutines share *)

(** Lines of [fmt.Fprintf(os.Stderr, ...)]. *)
Inductive Diag : Type :=
| FailedMarshal                 (* "Failed to marshal log entry: %v" *)
| EntryTooLarge (n : Z)         (* "Log entry too large: %d bytes" *)
| FailedFlush (e : error)       (* "Failed to flush buffer: %v" *)
| FailedWrite (e : error)       (* "Failed to write log entry: %v" *)
| FailedNewline (e : error).    (* "Failed to write newline: %v" *)

(** The fields of [Logger] ([output] is the sink under [writer]), with the
    package-level [entryPool] and the standard error stream. *)
Record Shared : Type := mkShared {
  writer : Writer;
  queue : list Entry;         (* goconcurrentqueue.FIFO *)
  wg : Z;                     (* counter of the sync.WaitGroup *)
  closed : bool;              (* int32, 0 or 1 *)
  mu : bool;                  (* sync.Mutex, held or not *)
  batchSize : nat;
  pool : list Entry;          (* entries kept by the sync.Pool *)
  stderr : list Diag
}.

Definition setWriter (w : Writer) (l : Shared) : Shared :=
  mkShared w (queue l) (wg l) (closed l) (mu l) (batchSize l) (pool l) (stderr l).
Definition setQueue (q : list Entry) (l : Shared) : Shared :=
  mkShared (writer l) q (wg l) (closed l) (mu l) (batchSize l) (pool l) (stderr l).
Definition setWg (n : Z) (l : Shared) : Shared :=
  mkShared (writer l) (queue l) n (closed l) (mu l) (batchSize l) (pool l) (stderr l).
Definition setClosed (c : bool) (l : Shared) : Shared :=
  mkShared (writer l) (queue l) (wg l) c (mu l) (batchSize l) (pool l) (stderr l).
Definition setMu (m : bool) (l : Shared) : Shared :=
  mkShared (writer l) (queue l) (wg l) (closed l) m (batchSize l) (pool l) (stderr l).
Definition setPool (p : list Entry) (l : Shared) : Shared :=
  mkShared (writer l) (queue l) (wg l) (closed l) (mu l) (batchSize l) p (stderr l).
Definition setStderr (d : list Diag) (l : Shared) : Shared :=
  mkShared (writer l) (queue l) (wg l) (closed l) (mu l) (batchSize l) (pool l) d.

(** [NewLogger(output)], before its workers are started; [None] is the nil
    writer, replaced by [io.Discard]. *)
Definition NewLogger (output : option Sink) (pool0 : list Entry) : Shared :=
  {| writer := NewWriterSize (default ioDiscard output) defaultBufferSize;
     queue := []; wg := 0; closed := false; mu := false; batchSize := 100;
     pool := pool0; stderr := [] |}.

(** [entryPool.Get()]: some entry of the pool, or a new one. *)
Definition poolGet (pick : option nat) (p : list Entry) : Entry * list Entry :=
  match pick with
  | Some n =>
      match p !! n with
      | Some e => (e, delete n p)
      | None => (newEntry, p)
      end
  | None => (newEntry, p)
  end.

(** [entryPool.Put(e)]. *)
Definition poolPut (e : Entry) (l : Shared) : Shared := setPool (e :: pool l) l.

(** [if err != nil && err != io.ErrShortWrite { fmt.Fprintf(os.Stderr, ...) }] *)
Definition report (mk : error → Diag) (e : option error) (l : Shared) : Shared :=
  match e with
  | Some ErrShortWrite | None => l
  | Some e => setStderr (stderr l ++ [mk e]) l
  end.

Definition newline : ascii := ascii_of_N 10.

(** The body of the range loop of [writeBatch], for one entry. *)
Definition writeEntry (l : Shared) (entry : Entry) : Shared :=
  match marshalEntry entry with
  | None => setStderr (stderr l ++ [FailedMarshal]) l            (* continue *)
  | Some data =>
      if maxEntrySize <? len data then
        setStderr (stderr l ++ [EntryTooLarge (len data)]) l    (* continue *)
      else
        let l1 :=
          if Available (writer l) <? len data + 1 then
            let '(w, e) := Flush (writer l) in
            report FailedFlush e (setWriter w l)
          else l in
        let '(w2, (_, e2)) := Write (writer l1) data in
        let l2 := report FailedWrite e2 (setWriter w2 l1) in
        let '(w3, e3) := WriteByte (writer l2) newline in
        let l3 := report FailedNewline e3 (setWriter w3 l2) in
        poolPut (resetEntry entry) l3
  end.

(** The flush that ends [writeBatch]. *)
Definition flushBatch (l : Shared) : Shared :=
  let '(w, e) := Flush (writer l) in
  report FailedFlush e (setWriter w l).

(** [writeBatch] run from [l.mu.Lock()] to the deferred [Unlock], nothing else
    running in between. *)
Definition writeBatch (l : Shared) (batch : list Entry) : Shared :=
  match batch with
  | [] => l
  | _ =>
      let l1 := flushBatch (foldl writeEntry l batch) in
      setWg (wg l1 - Z.of_nat (length batch)) l1
  end.

(** [Logger.log] run without interruption. *)
Definition log (now : Z) (pick : option nat) (level msg : string)
    (kvs : list Value) (l : Shared) : Shared :=
  let '(e0, p) := poolGet pick (pool l) in
  let e := fillEntry now level msg kvs e0 in
  let l := setPool p l in
  if closed l then poolPut e l
  else setWg (wg l + 1) (setQueue (queue l ++ [e]) l).

(** ** The goroutines *)

(** A call of [Logger.log]. *)
Inductive LogPc : Type :=
| LogCall (level msg : string) (kvs : list Value)  (* not yet started *)
| LogFilled (e : Entry)    (* next: atomic.LoadInt32(&l.closed) *)
| LogEnqueue (e : Entry)   (* next: l.queue.Enqueue(e) *)
| LogAdd (e : Entry)       (* next: l.wg.Add(1) *)
| LogPut (e : Entry)       (* next: entryPool.Put(e) *)
| LogDone (accepted : option Entry).

(** What [processLogs] does after a call of [writeBatch]. *)
Inductive After : Type := Again | Return.

(** A worker running [processLogs]; [batch] is its local slice. *)
Inductive WorkPc : Type :=
| WSelect (batch : list Entry)              (* the select statement *)
| WEmpty (batch : list Entry)               (* next: atomic.LoadInt32(&l.closed) *)
| WLen (batch : list Entry)                 (* next: l.queue.GetLen() *)
| WLock (batch : list Entry) (k : After)    (* next: l.mu.Lock() *)
| WRange (rest batch : list Entry) (k : After)  (* in the range loop *)
| WAdd (batch : list Entry) (k : After)     (* next: l.wg.Add(-len(batch)) *)
| WUnlock (k : After)                       (* next: the deferred Unlock *)
| WReturn.

(** A call of [Logger.Close]. *)
Inductive ClosePc : Type :=
| CloseCall                 (* next: atomic.CompareAndSwapInt32(&l.closed, 0, 1) *)
| CloseWait                 (* next: l.wg.Wait() *)
| CloseLock                 (* next: l.mu.Lock() *)
| CloseFlush                (* next: l.writer.Flush() and the deferred Unlock *)
| CloseDone (swapped : bool) (err : option error).

(** A call of the package function [Flush]. *)
Inductive FlushPc : Type :=
| FlushCall                 (* next: defaultLogger.wg.Wait() *)
| FlushLock
| FlushWriter
| FlushDone.

Record System : Type := mkSystem {
  shared : Shared;
  logs : list LogPc;
  workers : list WorkPc;
  closes : list ClosePc;
  flushes : list FlushPc;
  crashed : bool              (* a goroutine panicked: the process is gone *)
}.

Inductive Action : Type :=
| ALog (i : nat) (now : Z) (pick : option nat)
    (* [now]: what time.Now() returns; [pick]: what the pool hands out *)
| AWork (j : nat) (tick : bool)
    (* [tick]: whether the ticker channel is ready at the select *)
| AClose (k : nat)
| AFlush (k : nat).

Definition stepLog (now : Z) (pick : option nat) (pc : LogPc) (l : Shared)
  : option (LogPc * Shared) :=
  match pc with
  | LogCall level msg kvs =>
      let '(e, p) := poolGet pick (pool l) in
      Some (LogFilled (fillEntry now level msg kvs e), setPool p l)
  | LogFilled e => Some (if closed l then LogPut e else LogEnqueue e, l)
  | LogEnqueue e => Some (LogAdd e, setQueue (queue l ++ [e]) l)
  | LogAdd e => Some (LogDone (Some e), setWg (wg l + 1) l)
  | LogPut e => Some (LogDone None, poolPut e l)
  | LogDone _ => None
  end.

Definition after (k : After) : WorkPc :=
  match k with Again => WSelect [] | Return => WReturn end.

(** [writeBatch] returns at once on an empty batch. *)
Definition callWriteBatch (batch : list Entry) (k : After) : WorkPc :=
  match batch with [] => after k | _ => WLock batch k end.

(** The third component tells whether the step panics. *)
Definition stepWork (tick : bool) (pc : WorkPc) (l : Shared)
  : option (WorkPc * Shared * bool) :=
  match pc with
  | WSelect batch =>
      if tick then Some (callWriteBatch batch Again, l, false)
      else
        match queue l with
        | e :: q =>
            let batch' := batch ++ [e] in
            Some (if (batchSize l <=? length batch')%nat
                  then callWriteBatch batch' Again else WSelect batch',
                  setQueue q l, false)
        | [] => Some (WEmpty batch, l, false)
        end
  | WEmpty batch =>
      Some (if closed l then WLen batch else WSelect batch, l, false)
  | WLen batch =>
      Some (match queue l with
            | [] => callWriteBatch batch Return
            | _ => WSelect batch
            end, l, false)
  | WLock batch k =>
      if mu l then None else Some (WRange batch batch k, setMu true l, false)
  | WRange (e :: rest) batch k => Some (WRange rest batch k, writeEntry l e, false)
  | WRange [] batch k => Some (WAdd batch k, flushBatch l, false)
  | WAdd batch k =>
      let n := wg l - Z.of_nat (length batch) in
      Some (WUnlock k, setWg n l, n <? 0)   (* "sync: negative WaitGroup counter" *)
  | WUnlock k => Some (after k, setMu false l, false)
  | WReturn => None
  end.

Definition stepClose (pc : ClosePc) (l : Shared) : option (ClosePc * Shared) :=
  match pc with
  | CloseCall =>
      if closed l then Some (CloseDone false None, l)
      else Some (CloseWait, setClosed true l)
  | CloseWait => if wg l =? 0 then Some (CloseLock, l) else None
  | CloseLock => if mu l then None else Some (CloseFlush, setMu true l)
  | CloseFlush =>
      let '(w, e) := Flush (writer l) in
      Some (CloseDone true e, setMu false (setWriter w l))
  | CloseDone _ _ => None
  end.

Definition stepFlush (pc : FlushPc) (l : Shared) : option (FlushPc * Shared) :=
  match pc with
  | FlushCall => if wg l =? 0 then Some (FlushLock, l) else None
  | FlushLock => if mu l then None else Some (FlushWriter, setMu true l)
  | FlushWriter => Some (FlushDone, setMu false (setWriter (Flush (writer l)).1 l))
  | FlushDone => None
  end.

(** One step of the system; [None] when the goroutine named by the action
    does not exist, has ended or is blocked, or when the process is gone. *)
Definition step (s : System) (a : Action) : option System :=
  if crashed s then None
  else
    match a with
    | ALog i now pick =>
        pc ← logs s !! i;
        '(pc', l) ← stepLog now pick pc (shared s);
        Some (mkSystem l (<[i := pc']> (logs s)) (workers s) (closes s)
                (flushes s) false)
    | AWork j tick =>
        pc ← workers s !! j;
        '(pc', l, panic) ← stepWork tick pc (shared s);
        Some (mkSystem l (logs s) (<[j := pc']> (workers s)) (closes s)
                (flushes s) panic)
    | AClose k =>
        pc ← closes s !! k;
        '(pc', l) ← stepClose pc (shared s);
        Some (mkSystem l (logs s) (workers s) (<[k := pc']> (closes s))
                (flushes s) false)
    | AFlush k =>
        pc ← flushes s !! k;
        '(pc', l) ← stepFlush pc (shared s);
        Some (mkSystem l (logs s) (workers s) (closes s)
                (<[k := pc']> (flushes s)) false)
    end.

Fixpoint run (s : System) (acts : list Action) : option System :=
  match acts with
  | [] => Some s
  | a :: acts' => s' ← step s a; run s' acts'
  end.

(** The arguments of a call of [log]; [Info], [Error] and [Warn] call [log]
    on the default logger with their level. *)
Record Call : Type := mkCall {
  callLevel : string;
  callMsg : string;
  callKvs : list Value
}.

Definition Info (msg : string) (kvs : list Value) : Call := mkCall "info" msg kvs.
Definition Error (msg : string) (kvs : list Value) : Call := mkCall "error" msg kvs.
Definition Warn (msg : string) (kvs : list Value) : Call := mkCall "warn" msg kvs.

Definition toCall (c : Call) : LogPc :=
  LogCall (callLevel c) (callMsg c) (callKvs c).

(** A logger on [output] with its workers at the head of their loop, and the
    calls that the rest of the program will make. *)
Definition boot (output : option Sink) (pool0 : list Entry) (nworkers : nat)
    (calls : list Call) (ncloses nflushes : nat) : System :=
  {| shared := NewLogger output pool0;
     logs := toCall <$> calls;
     workers := replicate nworkers (WSelect []);
     closes := replicate ncloses CloseCall;
     flushes := replicate nflushes FlushCall;
     crashed := false |}.

(** ** The key/value walk *)

Global Instance Value_eq_dec : EqDecision Value.
Proof. solve_decision. Defined.

(** ** What [log] puts into the entry *)

(** The entry a call of [log] is about, from its arguments and the clock. *)
Definition entryOf (now : Z) (level msg : string) (kvs : list Value) : Entry :=
  {| Time := now; Level := level; Message := msg;
     Data := recordKeyvals kvs ∅ |}.

(** ** [bufio.Writer] over a sink that takes every write *)



(** ** The batch writer *)

(** The record of an entry: its serialization, unless that fails or is larger
    than [maxEntrySize]. *)
Definition recordOf (e : Entry) : option bytes :=
  data ← marshalEntry e;
  if maxEntrySize <? len data then None else Some data.

Definition lineOf (e : Entry) : bytes :=
  match recordOf e with
  | Some data => data ++ [newline]
  | None => []
  end.

(** ** Release of entries and the pending counter *)

(** The entry of [log.Error("Panic recovered", "error", err, "stack",
    gin.Recovery())] in the recovery middleware: the last value is a
    function. *)
Definition panicEntry : Entry :=
  entryOf 1 "error" "Panic recovered"
    [VStr "error"; VStr "boom"; VStr "stack"; VFunc].

Definition plainEntry : Entry :=
  entryOf 1 "info" "Starting server" [VStr "port"; VStr "8080"].

(** ** Accounting over the goroutines *)







(** The steps of the system, one case for each kind of goroutine. *)
Inductive stepped (s : System) : Action → System → Prop :=
| stepped_log i now pick pc pc' l :
    logs s !! i = Some pc → stepLog now pick pc (shared s) = Some (pc', l) →
    stepped s (ALog i now pick)
      (mkSystem l (<[i := pc']> (logs s)) (workers s) (closes s) (flushes s)
         false)
| stepped_work j tick pc pc' l panic :
    workers s !! j = Some pc →
    stepWork tick pc (shared s) = Some (pc', l, panic) →
    stepped s (AWork j tick)
      (mkSystem l (logs s) (<[j := pc']> (workers s)) (closes s) (flushes s)
         panic)
| stepped_close k pc pc' l :
    closes s !! k = Some pc → stepClose pc (shared s) = Some (pc', l) →
    stepped s (AClose k)
      (mkSystem l (logs s) (workers s) (<[k := pc']> (closes s)) (flushes s)
         false)
| stepped_flush k pc pc' l :
    flushes s !! k = Some pc → stepFlush pc (shared s) = Some (pc', l) →
    stepped s (AFlush k)
      (mkSystem l (logs s) (workers s) (closes s) (<[k := pc']> (flushes s))
         false).



(** ** What a step does to the flag and the counter *)

(** While the flag is unset no call of [Close] has started. *)
Definition unstarted (s : System) : Prop :=
  closed (shared s) = false → Forall (λ pc, pc = CloseCall) (closes s).

(** ** After the calls have returned *)




(** ** [Close] *)

(** A call of [Close] that won the compare-and-swap. *)
Definition effective (pc : ClosePc) : Prop :=
  match pc with
  | CloseWait | CloseLock | CloseFlush | CloseDone true _ => True
  | _ => False
  end.

(** At most one call of [Close] is past the compare-and-swap. *)
Definition single (s : System) : Prop :=
  ∀ k1 k2 pc1 pc2,
    closes s !! k1 = Some pc1 → closes s !! k2 = Some pc2 →
    effective pc1 → effective pc2 → k1 = k2.

(** The state of the system with the [k]-th call of [Close] at [pc] and the
    logger as [l]. *)
Definition closeTo (k : nat) (pc : ClosePc) (l : Shared) (s : System) : System :=
  mkSystem l (logs s) (workers s) (<[k := pc]> (closes s)) (flushes s) false.

(** ** [log] on a closed logger *)

(** Where a call of [log] can be when it finds the logger closed: not yet
    started, with its entry filled, about to hand the entry back to the pool,
    or returned without having enqueued. *)
Definition dropping (c : Call) (pc : LogPc) : Prop :=
  pc = toCall c ∨
  (∃ now, let e := entryOf now (callLevel c) (callMsg c) (callKvs c) in
          pc = LogFilled e ∨ pc = LogPut e) ∨
  pc = LogDone None.

(** ** Runs of the logger *)

Definition callA : Call := mkCall "info" "test message" [VStr "key"; VStr "value"].
Definition callB : Call := mkCall "info" "should not be logged" [].





(** One worker on a sink that takes nothing; [callA] is logged, [Close] is
    called and has come to its flush. *)
Definition failingRun : list Action :=
  [ALog 0 5 None; ALog 0 5 None; ALog 0 5 None; ALog 0 5 None; AClose 0;
   AWork 0 false; AWork 0 false; AWork 0 false; AWork 0 false; AWork 0 false;
   AWork 0 false; AWork 0 false; AWork 0 false; AWork 0 false;
   AClose 0; AClose 0].

Definition atFlush : System :=
  default (boot (Some (limitedSink 0)) [] 1 [callA; callB] 2 1)
    (run (boot (Some (limitedSink 0)) [] 1 [callA; callB] 2 1) failingRun).

Definition afterClose : System :=
  default atFlush (step atFlush (AClose 0)).

Definition lateLog : System :=
  default afterClose
    (run afterClose [ALog 1 9 None; AFlush 0; ALog 1 9 None]).






(** ** Reading back what [json.Marshal] wrote *)

(** A byte that stands for itself inside a JSON string. *)
Definition plain (c : ascii) : Prop :=
  N_of_ascii c ≠ 34%N ∧ N_of_ascii c ≠ 92%N ∧ (32 ≤ N_of_ascii c)%N.

Definition ascii7 (c : ascii) : Prop := (N_of_ascii c < 128)%N.

Definition high (c : ascii) : Prop := (128 ≤ N_of_ascii c)%N.

(** ** Values, members, maps *)

Definition asciiString (s : string) : Prop :=
  Forall ascii7 (list_ascii_of_string s).

(** The values that come back as they were written: integers come back as
    [float64], and a function is not written at all. *)
Definition okValue (v : Value) : Prop :=
  match v with
  | VStr s => asciiString s
  | VNil | VBool _ => True
  | _ => False
  end.

Definition jsonOf (v : Value) : JSON := default JNull (decoded v).

Definition okPair (p : string * Value) : Prop := asciiString p.1 ∧ okValue p.2.

(** ** A record holds no line terminator *)



(** ** [bufio.Writer] over any sink *)

(** The buffer holds at most [Size] bytes, and [Size] is positive. *)
Definition sized (b : Writer) : Prop := len (buf b) ≤ Size b ∧ 0 < Size b.

Global Instance Action_eq_dec : EqDecision Action.
Proof. solve_decision. Defined.

(** What a call of [Flush] on the writer [b] leaves behind, [b'] being the
    writer after it and [err] its result.  Without an error the whole buffer
    has been given to the sink and the buffer is empty.  With an error, the
    error is kept in the writer; either it is an error the writer had
    already, and nothing was written, or it is the error of the sink, which
    took fewer bytes than the buffer held and left the others in it. *)
Definition flushed (b b' : Writer) (err : option error) : Prop :=
  match err with
  | None =>
      werr b = None ∧ werr b' = None ∧ buf b' = [] ∧
      taken (wr b') = taken (wr b) ++ buf b
  | Some e =>
      werr b' = Some e ∧
      (werr b = Some e ∧ b' = b ∨
       werr b = None ∧ e = fault (wr b) ∧
       ∃ n : nat, (n < length (buf b))%nat ∧
         taken (wr b') = taken (wr b) ++ take n (buf b) ∧
         buf b' = drop n (buf b))
  end.

(** ** The buffer over the steps of the goroutines *)

(** In every state of a run the buffer is within its size, so the fuel of
    [Write] is enough whatever the sink does. *)
Definition fitted (s : System) : Prop := sized (writer (shared s)).

(** * Properties *)

(** ** Lemmas on the entry operations *)

Lemma clearData_fold (ks : list string) (m : gmap string Value) (k : string) :
  foldl (λ acc k, delete k acc) m ks !! k =
  if decide (k ∈ ks) then None else m !! k.
Proof.
  revert m. induction ks as [|k' ks IH]; intros m; cbn [foldl].
  - rewrite decide_False; [done|apply not_elem_of_nil].
  - rewrite IH. destruct (decide (k = k')) as [->|Hne].
    + rewrite lookup_delete_eq, (decide_True (P := k' ∈ k' :: ks)) by by left.
      by case_decide.
    + rewrite lookup_delete_ne by done.
      destruct (decide (k ∈ ks)) as [Hin|Hin].
      * by rewrite decide_True by by right.
      * rewrite decide_False; [done|].
        intros [?|?]%elem_of_cons; done.
Qed.

Lemma clearData_empty (m : gmap string Value) : clearData m = ∅.
Proof.
  apply map_eq. intros k. unfold clearData.
  rewrite clearData_fold, lookup_empty.
  case_decide as Hin; [done|].
  destruct (m !! k) as [v|] eqn:Hk; [|done].
  exfalso. apply Hin. apply list_elem_of_fmap.
  exists (k, v). split; [done|]. by apply elem_of_map_to_list.
Qed.

Lemma resetEntry_new (e : Entry) : resetEntry e = newEntry.
Proof. unfold resetEntry, newEntry. by rewrite clearData_empty. Qed.

Lemma kvsLoop_pairs (fuel i : nat) (kvs : list Value) (m : gmap string Value) :
  (length kvs ≤ i + 2 * fuel)%nat →
  kvsLoop fuel i kvs m = recordPairs (pairsOf (drop i kvs)) m.
Proof.
  revert i m. induction fuel as [|fuel IH]; intros i m Hlen.
  - simpl. rewrite drop_ge by lia. done.
  - cbn [kvsLoop].
    destruct (Nat.ltb_spec i (length kvs)) as [Hi|Hi];
      [|by rewrite drop_ge by lia].
    rewrite IH by lia.
    destruct (lookup_lt_is_Some_2 kvs i Hi) as [a Ha].
    rewrite (drop_S _ _ _ Ha).
    destruct (Nat.ltb_spec (i + 1) (length kvs)) as [Hi1|Hi1].
    + destruct (lookup_lt_is_Some_2 kvs (i + 1) Hi1) as [b Hb].
      replace (S i) with (i + 1)%nat by lia.
      rewrite (drop_S _ _ _ Hb).
      replace (S (i + 1)) with (i + 2)%nat by lia.
      cbn [pairsOf]. unfold recordPairs. cbn [foldl].
      rewrite Ha, Hb. unfold recordPair at 2. simpl. by destruct a.
    + rewrite (drop_ge kvs (S i)) by lia.
      rewrite (drop_ge kvs (i + 2)) by lia. done.
Qed.

Lemma recordKeyvals_pairs (kvs : list Value) (m : gmap string Value) :
  recordKeyvals kvs m = recordPairs (pairsOf kvs) m.
Proof. unfold recordKeyvals. rewrite kvsLoop_pairs by lia. by rewrite drop_0. Qed.

(** ** The key/value walk *)

Lemma pairsOf_lookup (kvs : list Value) (j : nat) (a b : Value) :
  pairsOf kvs !! j = Some (a, b) ↔
  kvs !! (2 * j)%nat = Some a ∧ kvs !! (2 * j + 1)%nat = Some b.
Proof.
  revert kvs. induction j as [|j IH]; intros [|x [|y rest]]; cbn [pairsOf];
    try (split; [done|intros [? ?]; done]).
  - simpl. split; [by intros [= -> ->]|by intros [[= ->] [= ->]]].
  - replace (2 * S j)%nat with (S (S (2 * j))) by lia.
    change ((x :: y :: rest) !! (S (S (2 * j)) + 1)%nat)
      with (rest !! (2 * j + 1)%nat).
    change ((x :: y :: rest) !! S (S (2 * j))) with (rest !! (2 * j)%nat).
    change (((x, y) :: pairsOf rest) !! S j) with (pairsOf rest !! j).
    apply IH.
Qed.

Lemma recordPairs_snoc (ps : list (Value * Value)) (p : Value * Value)
    (m : gmap string Value) :
  recordPairs (ps ++ [p]) m = recordPair (recordPairs ps m) p.
Proof. unfold recordPairs. by rewrite foldl_app. Qed.

Lemma recordPair_lookup (m : gmap string Value) (a b : Value) (k : string) :
  recordPair m (a, b) !! k = if decide (a = VStr k) then Some b else m !! k.
Proof.
  unfold recordPair; simpl. destruct a; try by rewrite decide_False.
  destruct (decide (s = k)) as [->|Hne].
  - by rewrite lookup_insert_eq, decide_True.
  - rewrite lookup_insert_ne by done. rewrite decide_False; [done|congruence].
Qed.

(** The value under [k] is that of the last pair whose first element is the
    string [k], and the value of the starting map when there is none. *)
Lemma recordPairs_lookup (ps : list (Value * Value)) (m : gmap string Value)
    (k : string) (v : Value) :
  recordPairs ps m !! k = Some v ↔
  (∃ j, ps !! j = Some (VStr k, v) ∧
        ∀ j' v', (j < j')%nat → ps !! j' ≠ Some (VStr k, v')) ∨
  ((∀ j v', ps !! j ≠ Some (VStr k, v')) ∧ m !! k = Some v).
Proof.
  revert v. induction ps as [|[a b] ps IH] using rev_ind; intros v.
  - cbn. split.
    + intros H. right. split; [|done]. intros j v'. by rewrite lookup_nil.
    + intros [(j & Hj & _)|[_ H]]; [by rewrite lookup_nil in Hj|done].
  - rewrite recordPairs_snoc, recordPair_lookup.
    assert (Hlast : (ps ++ [(a, b)]) !! length ps = Some (a, b)).
    { rewrite lookup_app_r by lia. by rewrite Nat.sub_diag. }
    destruct (decide (a = VStr k)) as [->|Hne].
    + split.
      * intros [= ->]. left. exists (length ps). split; [done|].
        intros j' v' Hlt. rewrite lookup_ge_None_2; [done|].
        rewrite length_app; simpl; lia.
      * intros [(j & Hj & Hafter)|[Hno _]].
        -- destruct (decide (j = length ps)) as [->|Hj'].
           ++ rewrite Hlast in Hj. congruence.
           ++ exfalso. apply lookup_lt_Some in Hj as Hlt.
              rewrite length_app in Hlt; simpl in Hlt.
              apply (Hafter (length ps) b); [lia|done].
        -- exfalso. by apply (Hno (length ps) b).
    + rewrite IH. split.
      * intros [(j & Hj & Hafter)|[Hno Hm]].
        -- left. exists j. split.
           ++ rewrite lookup_app_l; [done|]. by eapply lookup_lt_Some.
           ++ intros j' v' Hlt Hj'.
              destruct (decide (j' < length ps)%nat) as [Hin|Hout].
              ** rewrite lookup_app_l in Hj' by done. by eapply Hafter.
              ** apply lookup_lt_Some in Hj' as Hlt'.
                 rewrite length_app in Hlt'; simpl in Hlt'.
                 replace j' with (length ps) in Hj' by lia.
                 rewrite Hlast in Hj'. congruence.
        -- right. split; [|done]. intros j v' Hj.
           destruct (decide (j < length ps)%nat) as [Hin|Hout].
           ++ rewrite lookup_app_l in Hj by done. by eapply Hno.
           ++ apply lookup_lt_Some in Hj as Hlt'.
              rewrite length_app in Hlt'; simpl in Hlt'.
              replace j with (length ps) in Hj by lia.
              rewrite Hlast in Hj. congruence.
      * intros [(j & Hj & Hafter)|[Hno Hm]].
        -- left. exists j.
           assert (j < length ps)%nat as Hin.
           { apply lookup_lt_Some in Hj as Hlt'.
             rewrite length_app in Hlt'; simpl in Hlt'.
             destruct (decide (j = length ps)) as [->|]; [|lia].
             rewrite Hlast in Hj. congruence. }
           rewrite lookup_app_l in Hj by done. split; [done|].
           intros j' v' Hlt Hj'. apply (Hafter j' v' Hlt).
           rewrite lookup_app_l; [done|]. by eapply lookup_lt_Some.
        -- right. split; [|done]. intros j v' Hj. apply (Hno j v').
           rewrite lookup_app_l; [done|]. by eapply lookup_lt_Some.
Qed.

(** C6. Every key/value list is walked two elements at a time: the mapping
    holds [v] under [key] exactly when some complete pair (positions [2j]
    and [2j+1] both exist) has the string [key] first and [v] second, and no
    later complete pair has the same string first.  Pairs with a first
    element of another type, and a last element without a partner, leave no
    trace and do not stop the walk. *)
Theorem log_keyvals_recorded (kvs : list Value) (key : string) (v : Value) :
  recordKeyvals kvs ∅ !! key = Some v ↔
  ∃ j : nat,
    kvs !! (2 * j)%nat = Some (VStr key) ∧ kvs !! (2 * j + 1)%nat = Some v ∧
    ∀ j' : nat, (j < j')%nat → kvs !! (2 * j')%nat = Some (VStr key) →
                kvs !! (2 * j' + 1)%nat = None.
Proof.
  rewrite recordKeyvals_pairs, recordPairs_lookup. split.
  - intros [(j & Hj & Hafter)|[_ H]]; [|by rewrite lookup_empty in H].
    apply pairsOf_lookup in Hj as [Hk Hv]. exists j. split_and!; [done..|].
    intros j' Hlt Hk'.
    destruct (kvs !! (2 * j' + 1)%nat) as [v'|] eqn:Hv'; [|done].
    exfalso. apply (Hafter j' v' Hlt). by apply pairsOf_lookup.
  - intros (j & Hk & Hv & Hafter). left. exists j. split.
    + by apply pairsOf_lookup.
    + intros j' v' Hlt [Hk' Hv']%pairsOf_lookup.
      specialize (Hafter j' Hlt Hk'). congruence.
Qed.

(** ** What [log] puts into the entry *)

Lemma fillEntry_entryOf now level msg kvs (e : Entry) :
  fillEntry now level msg kvs e = entryOf now level msg kvs.
Proof. unfold fillEntry, entryOf. by rewrite resetEntry_new. Qed.

(** C9. Whatever the pool holds and whichever entry it hands out, with any
    time, level, message and mapping left in it, the first step of [log]
    leaves the goroutine with the entry made of the current time and the
    arguments of this call alone; on an open logger that is the entry that
    [log] enqueues. *)
Theorem log_entry_independent_of_pool (now : Z) (pick : option nat)
    (level msg : string) (kvs : list Value) (l : Shared) :
  (∃ p, stepLog now pick (LogCall level msg kvs) l =
        Some (LogFilled (entryOf now level msg kvs), setPool p l)) ∧
  (∀ e : Entry,
     Time (fillEntry now level msg kvs e) = now ∧
     Level (fillEntry now level msg kvs e) = level ∧
     Message (fillEntry now level msg kvs e) = msg ∧
     Data (fillEntry now level msg kvs e) = recordPairs (pairsOf kvs) ∅) ∧
  queue (log now pick level msg kvs (setClosed false l)) =
  queue l ++ [entryOf now level msg kvs].
Proof.
  split_and!.
  - unfold stepLog. destruct (poolGet pick (pool l)) as [e p].
    exists p. by rewrite fillEntry_entryOf.
  - intros e. rewrite fillEntry_entryOf. cbn.
    by rewrite recordKeyvals_pairs.
  - unfold log. cbn. destruct (poolGet pick (pool l)) as [e p].
    cbn. by rewrite fillEntry_entryOf.
Qed.

(** ** [bufio.Writer] over a sink that takes every write *)

Lemma len_nil : len [] = 0.
Proof. done. Qed.

Lemma len_app (p q : bytes) : len (p ++ q) = len p + len q.
Proof. unfold len. rewrite length_app. lia. Qed.

Lemma len_nonneg (p : bytes) : 0 ≤ len p.
Proof. unfold len. lia. Qed.

Lemma len_zero (p : bytes) : len p = 0 → p = [].
Proof. unfold len. destruct p; [done|simpl; lia]. Qed.

Lemma take_len (p : bytes) (n : Z) : len p ≤ n → take (Z.to_nat n) p = p.
Proof. unfold len. intros H. apply take_ge. lia. Qed.

Lemma drop_len (p : bytes) (n : Z) : len p ≤ n → drop (Z.to_nat n) p = [].
Proof. unfold len. intros H. apply drop_ge. lia. Qed.

Lemma len_take (p : bytes) (n : Z) :
  0 ≤ n ≤ len p → len (take (Z.to_nat n) p) = n.
Proof. unfold len. intros H. rewrite length_take. lia. Qed.

Lemma len_drop (p : bytes) (n : Z) :
  0 ≤ n ≤ len p → len (drop (Z.to_nat n) p) = len p - n.
Proof. unfold len. intros H. rewrite length_drop. lia. Qed.






(** ** The batch writer *)

Lemma report_frame mk e (l : Shared) :
  writer (report mk e l) = writer l ∧ queue (report mk e l) = queue l ∧
  wg (report mk e l) = wg l ∧ closed (report mk e l) = closed l ∧
  mu (report mk e l) = mu l ∧ batchSize (report mk e l) = batchSize l ∧
  pool (report mk e l) = pool l.
Proof. by destruct e as [[]|]. Qed.

Lemma writeEntry_cases (l : Shared) (e : Entry) :
  match marshalEntry e with
  | None => writeEntry l e = setStderr (stderr l ++ [FailedMarshal]) l
  | Some data =>
      if maxEntrySize <? len data then
        writeEntry l e = setStderr (stderr l ++ [EntryTooLarge (len data)]) l
      else
        let b1 := if Available (writer l) <? len data + 1
                  then (Flush (writer l)).1 else writer l in
        writer (writeEntry l e) = (WriteByte (Write b1 data).1 newline).1 ∧
        pool (writeEntry l e) = resetEntry e :: pool l
  end.
Proof.
  unfold writeEntry. destruct (marshalEntry e) as [data|]; [|done].
  destruct (maxEntrySize <? len data); [done|]. cbn zeta.
  destruct (Available (writer l) <? len data + 1).
  - destruct (Flush (writer l)) as [w e1]. cbn [fst].
    destruct (report_frame FailedFlush e1 (setWriter w l))
      as (-> & _ & _ & _ & _ & _ & Hp1).
    cbn [writer setWriter]. destruct (Write w data) as [w2 [n2 e2]].
    destruct (report_frame FailedWrite e2
                (setWriter w2 (report FailedFlush e1 (setWriter w l))))
      as (-> & _ & _ & _ & _ & _ & Hp2).
    cbn [writer setWriter fst]. destruct (WriteByte w2 newline) as [w3 e3].
    unfold poolPut. cbn [writer setPool pool fst].
    destruct (report_frame FailedNewline e3
                (setWriter w3 (report FailedWrite e2
                   (setWriter w2 (report FailedFlush e1 (setWriter w l))))))
      as (-> & _ & _ & _ & _ & _ & ->).
    cbn [writer setWriter pool]. by rewrite Hp2; cbn [pool setWriter]; rewrite Hp1.
  - destruct (Write (writer l) data) as [w2 [n2 e2]].
    destruct (report_frame FailedWrite e2 (setWriter w2 l))
      as (-> & _ & _ & _ & _ & _ & Hp2).
    cbn [writer setWriter fst]. destruct (WriteByte w2 newline) as [w3 e3].
    unfold poolPut. cbn [writer setPool pool fst].
    destruct (report_frame FailedNewline e3
                (setWriter w3 (report FailedWrite e2 (setWriter w2 l))))
      as (-> & _ & _ & _ & _ & _ & ->).
    cbn [writer setWriter pool]. by rewrite Hp2.
Qed.

Lemma writeEntry_frame (l : Shared) (e : Entry) :
  queue (writeEntry l e) = queue l ∧ wg (writeEntry l e) = wg l ∧
  closed (writeEntry l e) = closed l ∧ mu (writeEntry l e) = mu l ∧
  batchSize (writeEntry l e) = batchSize l.
Proof.
  unfold writeEntry. destruct (marshalEntry e) as [data|]; [|done].
  destruct (maxEntrySize <? len data); [done|]. cbn zeta.
  set (l1 := if Available (writer l) <? len data + 1 then _ else l).
  assert (H1 : queue l1 = queue l ∧ wg l1 = wg l ∧ closed l1 = closed l ∧
               mu l1 = mu l ∧ batchSize l1 = batchSize l).
  { subst l1. destruct (Available (writer l) <? len data + 1); [|done].
    destruct (Flush (writer l)) as [w e1].
    destruct (report_frame FailedFlush e1 (setWriter w l))
      as (_ & -> & -> & -> & -> & -> & _). done. }
  clearbody l1. destruct H1 as (<- & <- & <- & <- & <-).
  destruct (Write (writer l1) data) as [w2 [n2 e2]].
  set (l2 := report FailedWrite e2 (setWriter w2 l1)).
  destruct (report_frame FailedWrite e2 (setWriter w2 l1))
    as (_ & Hq & Hw & Hc & Hm & Hb & _). fold l2 in Hq, Hw, Hc, Hm, Hb.
  cbn in Hq, Hw, Hc, Hm, Hb. rewrite <-Hq, <-Hw, <-Hc, <-Hm, <-Hb.
  clearbody l2. destruct (WriteByte (writer l2) newline) as [w3 e3].
  unfold poolPut.
  destruct (report_frame FailedNewline e3 (setWriter w3 l2))
    as (_ & Hq' & Hw' & Hc' & Hm' & Hb' & _).
  cbn [queue wg closed mu batchSize setPool]. by rewrite Hq', Hw', Hc', Hm', Hb'.
Qed.

Lemma foldl_writeEntry_frame (batch : list Entry) (l : Shared) :
  queue (foldl writeEntry l batch) = queue l ∧
  wg (foldl writeEntry l batch) = wg l ∧
  closed (foldl writeEntry l batch) = closed l ∧
  mu (foldl writeEntry l batch) = mu l ∧
  batchSize (foldl writeEntry l batch) = batchSize l.
Proof.
  revert l. induction batch as [|e es IH]; intros l; [done|].
  cbn [foldl]. destruct (IH (writeEntry l e)) as (-> & -> & -> & -> & ->).
  apply writeEntry_frame.
Qed.











(** ** [bufio.Writer] over any sink *)

Lemma sinkWrite_count (k : Sink) (p : bytes) :
  let '(_, (n, e)) := sinkWrite k p in
  0 ≤ n ≤ len p ∧ (e = None → n = len p).
Proof.
  unfold sinkWrite. pose proof (len_nonneg p). destruct (room k) as [r|].
  - destruct (Z.ltb_spec (Z.max 0 (Z.min r (len p))) (len p)); split; try lia;
      done.
  - split; [lia|done].
Qed.

Lemma Flush_sized (b : Writer) :
  sized b →
  sized (Flush b).1 ∧ Size (Flush b).1 = Size b ∧
  (werr (Flush b).1 = None → buf (Flush b).1 = []).
Proof.
  intros [Hl Hs]. unfold Flush. destruct (werr b) as [e|] eqn:He.
  { cbn. rewrite He. by split_and!. }
  destruct (Z.eqb_spec (len (buf b)) 0) as [H0|H0].
  { cbn. split_and!; try done. intros _. by apply len_zero. }
  pose proof (sinkWrite_count (wr b) (buf b)) as Hc.
  destruct (sinkWrite (wr b) (buf b)) as [k [n e]]. destruct Hc as [Hn He'].
  destruct e as [e|].
  - cbn. split_and!; try done. split; [|done]. cbn.
    rewrite len_drop by lia. lia.
  - rewrite (He' eq_refl), Z.ltb_irrefl. cbn. split_and!; try done.
    split; [|done]. cbn. rewrite len_nil. lia.
Qed.

(** The loop of [Write] is over within two rounds: when [writeLoop] returns,
    with any fuel from two on, what is left of [p] fits the buffer or the
    writer has an error. *)
Lemma writeLoop_exits (fuel : nat) (b : Writer) (p : bytes) (nn : Z) :
  sized b → (2 ≤ fuel)%nat →
  ∃ b1 p1 nn1,
    writeLoop fuel b p nn = (b1, p1, nn1) ∧ sized b1 ∧ Size b1 = Size b ∧
    (len p1 ≤ Available b1 ∨ werr b1 ≠ None).
Proof.
  intros Hb Hfuel.
  assert (Hdone : ∀ fuel b p nn,
            len p ≤ Available b ∨ werr b ≠ None →
            writeLoop fuel b p nn = (b, p, nn)).
  { intros [|f] b' p' nn' Hex; [done|]. cbn [writeLoop].
    destruct (Z.ltb_spec (Available b') (len p')); [|done].
    destruct Hex as [?|Hex]; [lia|].
    rewrite bool_decide_eq_false_2 by done. done. }
  assert (Hdirect : ∀ fuel b p nn, sized b → buf b = [] → fuel ≠ O →
            ∃ b1 p1 nn1,
              writeLoop fuel b p nn = (b1, p1, nn1) ∧ sized b1 ∧
              Size b1 = Size b ∧ (len p1 ≤ Available b1 ∨ werr b1 ≠ None)).
  { intros [|f] b' p' nn' [Hl Hs] Hbuf Hf; [done|]. cbn [writeLoop].
    destruct (Z.ltb_spec (Available b') (len p')) as [Hlt|Hge]; cbn [andb].
    2:{ exists b', p', nn'. split_and!; try done. by left. }
    destruct (werr b') as [e|] eqn:He.
    { rewrite bool_decide_eq_false_2 by done.
      exists b', p', nn'. split_and!; try done. right. by rewrite He. }
    rewrite bool_decide_eq_true_2 by done.
    unfold Buffered. rewrite Hbuf, len_nil. cbn.
    pose proof (sinkWrite_count (wr b') p') as Hc.
    destruct (sinkWrite (wr b') p') as [k [n e]]. destruct Hc as [Hn He'].
    set (b2 := {| buf := []; Size := Size b'; werr := e; wr := k |}).
    assert (Hs2 : sized b2) by (split; [cbn; rewrite len_nil; lia|done]).
    assert (Hex : len (drop (Z.to_nat n) p') ≤ Available b2 ∨ werr b2 ≠ None).
    { destruct e as [e|]; [by right|]. left.
      rewrite drop_len by (rewrite (He' eq_refl); lia).
      unfold Available; cbn. rewrite !len_nil. lia. }
    rewrite (Hdone f b2 _ _ Hex). exists b2, (drop (Z.to_nat n) p'), (nn' + n).
    by split_and!. }
  destruct fuel as [|fuel]; [lia|]. assert (Hfuel' : fuel ≠ O) by lia.
  cbn [writeLoop]. pose proof Hb as [Hl Hs].
  destruct (Z.ltb_spec (Available b) (len p)) as [Hlt|Hge]; cbn [andb].
  2:{ exists b, p, nn. split_and!; try done. by left. }
  destruct (werr b) as [e|] eqn:He.
  { rewrite bool_decide_eq_false_2 by done.
    exists b, p, nn. split_and!; try done. right. by rewrite He. }
  rewrite bool_decide_eq_true_2 by done.
  destruct (Z.eqb_spec (Buffered b) 0) as [H0|H0].
  - apply len_zero in H0.
    pose proof (sinkWrite_count (wr b) p) as Hc.
    destruct (sinkWrite (wr b) p) as [k [n e]]. destruct Hc as [Hn He'].
    set (b2 := {| buf := buf b; Size := Size b; werr := e; wr := k |}).
    assert (Hs2 : sized b2) by done.
    assert (Hex : len (drop (Z.to_nat n) p) ≤ Available b2 ∨ werr b2 ≠ None).
    { destruct e as [e|]; [by right|]. left.
      rewrite drop_len by (rewrite (He' eq_refl); lia).
      unfold Available; cbn. rewrite H0, !len_nil. lia. }
    rewrite (Hdone fuel b2 _ _ Hex). exists b2, (drop (Z.to_nat n) p), (nn + n).
    by split_and!.
  - unfold Available in *. pose proof (len_nonneg (buf b)).
    rewrite Z.min_l, Z.max_r by lia.
    set (n := Size b - len (buf b)) in *.
    set (b1 := {| buf := buf b ++ take (Z.to_nat n) p; Size := Size b;
                  werr := None; wr := wr b |}).
    assert (Hs1 : sized b1).
    { split; [|done]. cbn. rewrite len_app, len_take by lia. lia. }
    destruct (Flush_sized b1 Hs1) as (Hs2 & Hsz2 & Hbuf2).
    destruct (werr (Flush b1).1) as [e|] eqn:He2.
    + rewrite Hdone by (right; by rewrite He2).
      eexists _, _, _. split_and!; try done. right. by rewrite He2.
    + destruct (Hdirect fuel (Flush b1).1 (drop (Z.to_nat n) p) (nn + n)
                  Hs2 (Hbuf2 eq_refl) Hfuel')
        as (b3 & p3 & nn3 & -> & Hs3 & Hsz3 & Hex3).
      exists b3, p3, nn3. split_and!; try done. by rewrite Hsz3, Hsz2.
Qed.

Lemma Write_sized (b : Writer) (p : bytes) :
  sized b → sized (Write b p).1 ∧ Size (Write b p).1 = Size b.
Proof.
  intros Hb. unfold Write.
  destruct (writeLoop_exits (2 + length p) b p 0 Hb ltac:(lia))
    as (b1 & p1 & nn1 & -> & [Hl Hs] & Hsz & Hex).
  destruct (werr b1) as [e|]; cbn; [done|].
  destruct Hex as [Hfit|?]; [|done]. pose proof (len_nonneg p1).
  split; [|done]. split; [|done]. cbn.
  rewrite Z.min_r, Z.max_r by lia. rewrite take_len by lia.
  rewrite len_app. unfold Available in Hfit. lia.
Qed.

Lemma Flush_error (b : Writer) : (Flush b).2 = werr (Flush b).1.
Proof.
  unfold Flush. destruct (werr b) as [e|] eqn:He; [done|].
  destruct (len (buf b) =? 0); [done|].
  destruct (sinkWrite (wr b) (buf b)) as [k [n [e|]]]; [done|].
  by destruct (n <? len (buf b)).
Qed.

Lemma WriteByte_sized (b : Writer) (c : ascii) :
  sized b → sized (WriteByte b c).1 ∧ Size (WriteByte b c).1 = Size b.
Proof.
  intros Hb. unfold WriteByte. pose proof Hb as [Hl Hs].
  destruct (werr b) as [e|] eqn:He; [done|].
  destruct (Z.leb_spec (Available b) 0) as [Hfull|Hfree].
  - destruct (Flush_sized b Hb) as ([Hl2 Hs2] & Hsz2 & Hbuf2).
    pose proof (Flush_error b) as Hfe.
    destruct (Flush b) as [b1 [e|]]; cbn in *; [done|].
    split; [|done]. split; [|done]. cbn.
    rewrite Hbuf2 by done. unfold len; cbn. lia.
  - cbn. split; [|done]. split; [|done]. cbn. rewrite len_app.
    unfold Available in Hfree. unfold len at 2; cbn. lia.
Qed.

Lemma writeEntry_sized (l : Shared) (e : Entry) :
  sized (writer l) → sized (writer (writeEntry l e)).
Proof.
  intros Hs. pose proof (writeEntry_cases l e) as Hc.
  destruct (marshalEntry e) as [data|]; [|by rewrite Hc].
  destruct (maxEntrySize <? len data); [by rewrite Hc|].
  destruct Hc as [-> _].
  set (b1 := if Available (writer l) <? len data + 1 then _ else _).
  assert (Hs1 : sized b1).
  { subst b1. destruct (_ <? _); [|done]. by apply Flush_sized. }
  clearbody b1. apply WriteByte_sized, Write_sized, Hs1.
Qed.

(** ** Release of entries and the pending counter *)

Lemma flushBatch_frame (l : Shared) :
  queue (flushBatch l) = queue l ∧ wg (flushBatch l) = wg l ∧
  closed (flushBatch l) = closed l ∧ mu (flushBatch l) = mu l ∧
  batchSize (flushBatch l) = batchSize l ∧ pool (flushBatch l) = pool l.
Proof.
  unfold flushBatch. destruct (Flush (writer l)) as [w e].
  destruct (report_frame FailedFlush e (setWriter w l))
    as (_ & -> & -> & -> & -> & -> & ->). done.
Qed.

(** The counter goes down by the length of the batch, whatever became of its
    entries. *)
Lemma writeBatch_counter (l : Shared) (batch : list Entry) :
  wg (writeBatch l batch) = wg l - Z.of_nat (length batch).
Proof.
  destruct batch as [|e es]; [cbn; lia|].
  unfold writeBatch. cbn [wg setWg].
  destruct (flushBatch_frame (foldl writeEntry l (e :: es)))
    as (_ & -> & _).
  by destruct (foldl_writeEntry_frame (e :: es) l) as (_ & -> & _).
Qed.

Lemma writeEntry_pool (l : Shared) (e : Entry) :
  pool (writeEntry l e) =
  match recordOf e with
  | Some _ => newEntry :: pool l
  | None => pool l
  end.
Proof.
  pose proof (writeEntry_cases l e) as Hc. unfold recordOf.
  destruct (marshalEntry e) as [data|]; cbn [mbind option_bind].
  - destruct (maxEntrySize <? len data).
    + by rewrite Hc.
    + destruct Hc as [_ ->]. by rewrite resetEntry_new.
  - by rewrite Hc.
Qed.

(** The pool receives one reset entry for each entry that was written, and
    nothing for an entry that was skipped. *)
Lemma writeBatch_pool (l : Shared) (batch : list Entry) :
  pool (writeBatch l batch) =
  replicate (length (filter (λ e, is_Some (recordOf e)) batch)) newEntry ++
  pool l.
Proof.
  assert (H : ∀ batch l, pool (foldl writeEntry l batch) =
    replicate (length (filter (λ e, is_Some (recordOf e)) batch)) newEntry ++
    pool l).
  { clear. induction batch as [|e es IH]; intros l; [done|].
    cbn [foldl]. rewrite IH, writeEntry_pool, filter_cons.
    destruct (recordOf e) as [data|].
    - rewrite decide_True by done. cbn [length].
      by rewrite replicate_S_end, <-(assoc_L (++)).
    - rewrite decide_False; [done|]. by intros [? ?]. }
  destruct batch as [|e es]; [done|].
  unfold writeBatch. cbn [pool setWg].
  destruct (flushBatch_frame (foldl writeEntry l (e :: es)))
    as (_ & _ & _ & _ & _ & ->).
  apply H.
Qed.

(** C2, at a batch with an entry that does not serialize.  The counter goes
    down by one for each entry of the batch, but the [continue] of the failed
    entry passes over [resetEntry] and [entryPool.Put]: of the two entries
    only the written one reaches the pool. *)
Theorem writeBatch_skipped_entry_not_released :
  let l := setWg 2 (NewLogger (Some bytesBuffer) []) in
  marshalEntry panicEntry = None ∧
  wg (writeBatch l [panicEntry; plainEntry]) = 0 ∧
  stderr (writeBatch l [panicEntry; plainEntry]) = [FailedMarshal] ∧
  pool (writeBatch l [panicEntry; plainEntry]) = [newEntry] ∧
  pool (writeBatch (setWg 1 l) [panicEntry]) = [].
Proof. vm_compute. done. Qed.

(** C3, at the call of [TestLoggerClose] after [Close]: on a closed logger
    [log] hands the entry to the pool as it filled it, without [resetEntry];
    time, level, message and mapping of the call are those of the pooled
    entry. *)
Theorem log_closed_pools_filled_entry :
  let l := setClosed true (NewLogger (Some bytesBuffer) []) in
  pool (log 7 None "info" "should not be logged" [VStr "key"; VStr "value"] l) =
  [ {| Time := 7; Level := "info"; Message := "should not be logged";
       Data := {[ "key" := VStr "value" ]} |} ] ∧
  stepLog 7 None (LogPut plainEntry) l =
  Some (LogDone None, setPool [plainEntry] l) ∧
  resetEntry plainEntry ≠ plainEntry.
Proof. vm_compute. split_and!; done. Qed.

(** ** Reading back what [json.Marshal] wrote *)

Lemma unquote_plain_cons (c : ascii) (s out r : bytes) :
  plain c → unquote s = Some (out, r) → unquote (c :: s) = Some (c :: out, r).
Proof.
  intros (H1 & H2 & H3) Hs. cbn [unquote].
  destruct (N.eqb_spec (N_of_ascii c) 34); [done|].
  destruct (N.eqb_spec (N_of_ascii c) 92); [done|].
  destruct (N.ltb_spec (N_of_ascii c) 32); [lia|].
  by rewrite Hs.
Qed.

Lemma unquote_quote (r : bytes) : unquote (quote :: r) = Some ([], r).
Proof. done. Qed.

Lemma unquote_plain (s r : bytes) :
  Forall plain s → unquote (s ++ quote :: r) = Some (s, r).
Proof.
  induction 1 as [|c s Hc _ IH]; [done|]. cbn [app].
  by apply unquote_plain_cons.
Qed.

Lemma escapeAscii_unquote (c : ascii) (tail out r : bytes) :
  ascii7 c → unquote tail = Some (out, r) →
  unquote (escapeAscii c ++ tail) = Some (c :: out, r).
Proof.
  intros Hc Ht.
  destruct c as [[] [] [] [] [] [] [] []]; try (by vm_compute in Hc);
    match goal with
    | |- context [escapeAscii ?c] =>
        let e := eval vm_compute in (escapeAscii c) in
        change (escapeAscii c) with e
    end; cbn; rewrite Ht; reflexivity.
Qed.

Lemma unquote_escape_ascii (s r : bytes) :
  Forall ascii7 s →
  unquote (escapeFrom 0 true s ++ quote :: r) = Some (s, r).
Proof.
  induction 1 as [|c s Hc _ IH]; [done|]. cbn [escapeFrom].
  unfold ascii7 in Hc. destruct (N.ltb_spec (N_of_ascii c) 128); [|lia].
  rewrite <-(assoc_L (++)). by apply escapeAscii_unquote.
Qed.

Lemma high_plain (c : ascii) : high c → plain c.
Proof. unfold high, plain. lia. Qed.

Lemma inRange_high (lo hi : N) (c : ascii) :
  (128 ≤ lo)%N → inRange lo hi c = true → high c.
Proof.
  unfold inRange, high. intros Hlo [H1 _]%andb_prop.
  apply N.leb_le in H1. lia.
Qed.

(** The bytes that follow the head of a valid sequence are above ASCII. *)
Lemma utf8Size_high (c : ascii) (rest : bytes) (k : nat) :
  utf8Size (c :: rest) = S k → Forall high (take k rest).
Proof.
  unfold utf8Size. destruct rest as [|c1 rest]; [done|].
  destruct (inRange 194 223 c).
  { destruct (inRange 128 191 c1) eqn:H1; [|done]. intros [= <-].
    cbn. repeat constructor. by eapply inRange_high. }
  destruct (inRange 224 239 c).
  { destruct rest as [|c2 rest]; [done|].
    match goal with
    | |- context [inRange ?lo ?hi c1] => destruct (inRange lo hi c1) eqn:H1
    end; [|done].
    destruct (inRange 128 191 c2) eqn:H2; [|done]. intros [= <-].
    cbn. repeat constructor.
    - eapply inRange_high; [|done]. by destruct (_ =? _)%N.
    - by eapply inRange_high. }
  destruct (inRange 240 244 c); [|done].
  destruct rest as [|c2 [|c3 rest]]; try done.
  match goal with
  | |- context [inRange ?lo ?hi c1] => destruct (inRange lo hi c1) eqn:H1
  end; [|done].
  destruct (inRange 128 191 c2) eqn:H2; [|done].
  destruct (inRange 128 191 c3) eqn:H3; [|done]. intros [= <-].
  cbn. repeat constructor.
  - eapply inRange_high; [|done]. by destruct (_ =? _)%N.
  - by eapply inRange_high.
  - by eapply inRange_high.
Qed.

Lemma lineSeparator_cases (s esc : bytes) :
  lineSeparator s = Some esc → esc = escapeU "2028" ∨ esc = escapeU "2029".
Proof.
  unfold lineSeparator. destruct s as [|c0 [|c1 [|c2 s]]]; try done.
  destruct (_ && _); [|done].
  destruct (_ =? 168)%N; [intros [= <-]; by left|].
  destruct (_ =? 169)%N; [intros [= <-]; by right|done].
Qed.

Lemma unquote_escapeU (hex : string) :
  hex = "fffd" ∨ hex = "2028" ∨ hex = "2029" →
  ∃ pre, ∀ tail out r,
    unquote tail = Some (out, r) →
    unquote (escapeU hex ++ tail) = Some (pre ++ out, r).
Proof.
  intros [-> |[-> | ->]];
    match goal with
    | |- context [escapeU ?h] =>
        let e := eval vm_compute in (escapeU h) in
        change (escapeU h) with e
    end; eexists; intros tail out r Ht; cbn; rewrite Ht; reflexivity.
Qed.

(** Whatever the string, what [appendString] writes reads back as one
    string, up to its closing quote. *)
Lemma unquote_escape_any (s : bytes) (skip : nat) (copy : bool) :
  Forall high (take skip s) →
  ∃ out, ∀ r, unquote (escapeFrom skip copy s ++ quote :: r) = Some (out, r).
Proof.
  revert skip copy. induction s as [|c s IH]; intros skip copy Hhigh.
  - exists []. by destruct skip.
  - cbn [escapeFrom]. destruct skip as [|k].
    + destruct (N.ltb_spec (N_of_ascii c) 128) as [Hlow|Hhi].
      * destruct (IH 0%nat true) as [out Hout]; [by rewrite take_0|].
        exists (c :: out). intros r. rewrite <-(assoc_L (++)).
        by apply escapeAscii_unquote.
      * destruct (utf8Size (c :: s)) as [|k] eqn:Hsize.
        { destruct (IH 0%nat true) as [out Hout]; [by rewrite take_0|].
          destruct (unquote_escapeU "fffd") as [pre Hpre]; [auto|].
          exists (pre ++ out). intros r. rewrite <-(assoc_L (++)).
          by apply Hpre. }
        pose proof (utf8Size_high _ _ _ Hsize) as Hk.
        destruct (lineSeparator (c :: s)) as [esc|] eqn:Hsep.
        -- destruct (IH k false Hk) as [out Hout].
           destruct (lineSeparator_cases _ _ Hsep) as [-> | ->].
           ++ destruct (unquote_escapeU "2028") as [pre Hpre]; [auto|].
              exists (pre ++ out). intros r. rewrite <-(assoc_L (++)).
              by apply Hpre.
           ++ destruct (unquote_escapeU "2029") as [pre Hpre]; [auto|].
              exists (pre ++ out). intros r. rewrite <-(assoc_L (++)).
              by apply Hpre.
        -- destruct (IH k true Hk) as [out Hout].
           exists (c :: out). intros r. cbn [app].
           apply unquote_plain_cons; [|done].
           apply high_plain. unfold high. lia.
    + cbn [take] in Hhigh. apply Forall_cons in Hhigh as [Hc Hk].
      destruct (IH k copy Hk) as [out Hout]. destruct copy.
      * exists (c :: out). intros r. cbn [app].
        apply unquote_plain_cons; [|done]. by apply high_plain.
      * by exists out.
Qed.

Lemma digitChar_plain (d : Z) : plain (digitChar d).
Proof.
  unfold plain, digitChar. pose proof (Z.mod_pos_bound d 10 ltac:(lia)).
  rewrite N_ascii_embedding by lia. lia.
Qed.

Lemma padDigits_plain (width : nat) (n : Z) (acc : bytes) :
  Forall plain acc → Forall plain (padDigits width n acc).
Proof.
  revert n acc. induction width as [|w IH]; intros n acc Hacc; [done|].
  cbn. apply IH. constructor; [apply digitChar_plain|done].
Qed.

Lemma stripZeros_plain (s : bytes) : Forall plain s → Forall plain (stripZeros s).
Proof.
  induction 1 as [|c s Hc Hs IH]; [done|]. cbn.
  destruct (Ascii.eqb_spec c "0"%char) as [->|Hne]; [done|].
  assert (Hkeep : stripZeros (c :: s) = c :: s).
  { destruct c as [[] [] [] [] [] [] [] []]; try done. }
  change (Forall plain (stripZeros (c :: s))). rewrite Hkeep. by constructor.
Qed.

Lemma formatRFC3339Nano_plain (t : Z) (s : bytes) :
  formatRFC3339Nano t = Some s → Forall plain s.
Proof.
  unfold formatRFC3339Nano. destruct (civilOfDays _) as [[y m] d].
  destruct (_ || _); [done|]. intros H.
  apply (inj Some) in H. subst s.
  assert (Hlit : ∀ c, In c (list_ascii_of_string "-T:.Z") → plain c).
  { intros c Hin. cbn in Hin. unfold plain.
    destruct Hin as [<-|[<-|[<-|[<-|[<-|[]]]]]]; cbn; lia. }
  do 5 (apply Forall_app; split; [by apply padDigits_plain|];
        apply Forall_cons; split; [apply Hlit; cbn; tauto|]).
  apply Forall_app; split; [by apply padDigits_plain|].
  apply Forall_app; split.
  - destruct (_ =? 0); [done|].
    apply Forall_cons; split; [apply Hlit; cbn; tauto|].
    apply Forall_rev, stripZeros_plain, Forall_rev, padDigits_plain. done.
  - apply Forall_cons; split; [apply Hlit; cbn; tauto|done].
Qed.

(** ** The parser on the texts that [json.Marshal] writes *)

Lemma parseValue_quote (f : nat) (body : bytes) :
  parseValue (S f) (quote :: body) =
  '(b, r) ← unquote body; Some (JStr (string_of_list_ascii b), r).
Proof. reflexivity. Qed.

Lemma parseValue_null (f : nat) (r : bytes) :
  parseValue (S f) (list_ascii_of_string "null" ++ r) = Some (JNull, r).
Proof. reflexivity. Qed.

Lemma parseValue_true (f : nat) (r : bytes) :
  parseValue (S f) (list_ascii_of_string "true" ++ r) = Some (JBool true, r).
Proof. reflexivity. Qed.

Lemma parseValue_false (f : nat) (r : bytes) :
  parseValue (S f) (list_ascii_of_string "false" ++ r) = Some (JBool false, r).
Proof. reflexivity. Qed.

Lemma parseValue_no_members (f : nat) (r : bytes) :
  parseValue (S f) ("{"%char :: "}"%char :: r) = Some (JObj [], r).
Proof. reflexivity. Qed.

Lemma parseValue_members (f : nat) (r : bytes) :
  parseValue (S f) ("{"%char :: quote :: r) = parseMembers f (quote :: r) [].
Proof. reflexivity. Qed.

(** A member and the comma after it. *)
Lemma parseMembers_comma (f : nat) (keyText valueText tail : bytes)
    (k : bytes) (v : JSON) (acc : list (string * JSON)) :
  (∀ r, unquote (keyText ++ quote :: r) = Some (k, r)) →
  (∀ r, parseValue f (valueText ++ r) = Some (v, r)) →
  parseMembers (S f)
    (quote :: keyText ++ quote :: ":"%char :: valueText ++ ","%char :: tail)
    acc =
  parseMembers f tail (acc ++ [(string_of_list_ascii k, v)]).
Proof.
  intros Hk Hv.
  change (parseMembers (S f) (quote :: ?body) acc)
    with ('(k, r1) ← unquote body;
          match skipSpace r1 with
          | c1 :: r2 =>
              if (N_of_ascii c1 =? 58)%N then
                '(v, r3) ← parseValue f r2;
                let acc' := acc ++ [(string_of_list_ascii k, v)] in
                match skipSpace r3 with
                | c3 :: r4 =>
                    if (N_of_ascii c3 =? 44)%N then parseMembers f r4 acc'
                    else if (N_of_ascii c3 =? 125)%N then Some (JObj acc', r4)
                    else None
                | [] => None
                end
              else None
          | [] => None
          end).
  rewrite Hk. cbn [mbind option_bind].
  change (skipSpace (":"%char :: ?x)) with (":"%char :: x).
  change (N_of_ascii ":" =? 58)%N with true. cbv iota.
  rewrite Hv. cbn [mbind option_bind]. reflexivity.
Qed.

(** The last member and the closing brace. *)
Lemma parseMembers_brace (f : nat) (keyText valueText tail : bytes)
    (k : bytes) (v : JSON) (acc : list (string * JSON)) :
  (∀ r, unquote (keyText ++ quote :: r) = Some (k, r)) →
  (∀ r, parseValue f (valueText ++ r) = Some (v, r)) →
  parseMembers (S f)
    (quote :: keyText ++ quote :: ":"%char :: valueText ++ "}"%char :: tail)
    acc =
  Some (JObj (acc ++ [(string_of_list_ascii k, v)]), tail).
Proof.
  intros Hk Hv.
  change (parseMembers (S f) (quote :: ?body) acc)
    with ('(k, r1) ← unquote body;
          match skipSpace r1 with
          | c1 :: r2 =>
              if (N_of_ascii c1 =? 58)%N then
                '(v, r3) ← parseValue f r2;
                let acc' := acc ++ [(string_of_list_ascii k, v)] in
                match skipSpace r3 with
                | c3 :: r4 =>
                    if (N_of_ascii c3 =? 44)%N then parseMembers f r4 acc'
                    else if (N_of_ascii c3 =? 125)%N then Some (JObj acc', r4)
                    else None
                | [] => None
                end
              else None
          | [] => None
          end).
  rewrite Hk. cbn [mbind option_bind].
  change (skipSpace (":"%char :: ?x)) with (":"%char :: x).
  change (N_of_ascii ":" =? 58)%N with true. cbv iota.
  rewrite Hv. cbn [mbind option_bind]. reflexivity.
Qed.

(** ** Values, members, maps *)

Lemma unquote_appendString (s : string) :
  ∃ out, ∀ r, unquote (escapeFrom 0 true (list_ascii_of_string s) ++ [quote] ++ r)
              = Some (out, r).
Proof. apply unquote_escape_any. by rewrite take_0. Qed.

Lemma parseValue_appendString (s : string) :
  ∃ s', ∀ f r, parseValue (S f) (appendString s ++ r) = Some (JStr s', r).
Proof.
  destruct (unquote_appendString s) as [out Hout].
  exists (string_of_list_ascii out). intros f r. unfold appendString.
  cbn [app]. rewrite parseValue_quote, <-(assoc_L (++)), Hout. done.
Qed.

Lemma parseValue_appendString_ascii (s : string) (f : nat) (r : bytes) :
  asciiString s →
  parseValue (S f) (appendString s ++ r) = Some (JStr s, r).
Proof.
  intros Hs. unfold appendString. cbn [app].
  rewrite parseValue_quote, <-(assoc_L (++)).
  change ([quote] ++ r) with (quote :: r).
  rewrite unquote_escape_ascii by done. cbn.
  by rewrite string_of_list_ascii_of_string.
Qed.

Lemma parseValue_marshalValue (v : Value) (d : bytes) (f : nat) (r : bytes) :
  okValue v → marshalValue v = Some d →
  parseValue (S f) (d ++ r) = Some (jsonOf v, r).
Proof.
  destruct v as [|[]|n|s|]; cbn [okValue marshalValue]; try done;
    intros Hok [= <-].
  - apply parseValue_null.
  - apply parseValue_true.
  - apply parseValue_false.
  - by apply parseValue_appendString_ascii.
Qed.

Lemma marshalMembers_comma (p : string * Value) (ps : list (string * Value)) :
  marshalMembers false (p :: ps) =
  (λ body, ","%char :: body) <$> marshalMembers true (p :: ps).
Proof.
  destruct p as [k v]. cbn [marshalMembers].
  destruct (marshalValue v); [|done]. cbn.
  by destruct (marshalMembers false ps).
Qed.

Lemma marshalMembers_cons (first : bool) (k : string) (v : Value)
    (ps : list (string * Value)) :
  marshalMembers first ((k, v) :: ps) =
  d ← marshalValue v;
  r ← marshalMembers false ps;
  Some ((if first then [] else [","%char]) ++
        appendString k ++ ":"%char :: d ++ r).
Proof. done. Qed.

Lemma appendString_app (s : string) (r : bytes) :
  appendString s ++ r =
  quote :: escapeFrom 0 true (list_ascii_of_string s) ++ quote :: r.
Proof. unfold appendString. cbn [app]. by rewrite <-(assoc_L (++)). Qed.

Lemma parseMembers_marshal (ps : list (string * Value)) :
  ∀ (p : string * Value) (body : bytes) (acc : list (string * JSON))
    (r : bytes) (f : nat),
    Forall okPair (p :: ps) →
    marshalMembers true (p :: ps) = Some body →
    (length ps < f)%nat →
    parseMembers (S f) (body ++ "}"%char :: r) acc =
    Some (JObj (acc ++ (prod_map id jsonOf <$> p :: ps)), r).
Proof.
  induction ps as [|p' ps IH]; intros [k v] body acc r f Hok Hm Hf;
    rewrite marshalMembers_cons in Hm;
    destruct (marshalValue v) as [d|] eqn:Hd; try done;
    cbn [mbind option_bind] in Hm;
    rewrite (Forall_cons okPair) in Hok; destruct Hok as [[Hk Hv] Hok];
    cbn [fst snd] in Hk, Hv; (destruct f as [|f]; [cbn in Hf; lia|]).
  - cbn [marshalMembers mbind option_bind app] in Hm. apply (inj Some) in Hm.
    subst body. rewrite app_nil_r, <-(assoc_L (++)), appendString_app.
    cbn [app]. erewrite parseMembers_brace.
    + by rewrite string_of_list_ascii_of_string.
    + intros r'. by apply unquote_escape_ascii.
    + intros r'. by apply parseValue_marshalValue.
  - rewrite marshalMembers_comma in Hm.
    destruct (marshalMembers true (p' :: ps)) as [body'|] eqn:Hb; [|done].
    cbn [fmap option_fmap option_map mbind option_bind app] in Hm.
    apply (inj Some) in Hm. subst body.
    rewrite <-(assoc_L (++)), appendString_app. cbn [app].
    rewrite <-(assoc_L (++)). cbn [app].
    erewrite parseMembers_comma.
    + rewrite (IH p' body' _ r f Hok Hb) by (cbn in Hf; lia).
      rewrite string_of_list_ascii_of_string.
      by rewrite <-(assoc_L (++)).
    + intros r'. by apply unquote_escape_ascii.
    + intros r'. by apply parseValue_marshalValue.
Qed.

Lemma sortedPairs_perm (m : gmap string Value) : sortedPairs m ≡ₚ map_to_list m.
Proof. apply merge_sort_Permutation. Qed.

Lemma parseValue_marshalMap (m : gmap string Value) (d : bytes) (f : nat)
    (r : bytes) :
  map_Forall (λ k v, okPair (k, v)) m → marshalMap m = Some d →
  (size m ≤ f)%nat →
  parseValue (S (S f)) (d ++ r) =
  Some (JObj (prod_map id jsonOf <$> sortedPairs m), r).
Proof.
  intros Hok Hm Hf. unfold marshalMap in Hm.
  destruct (marshalMembers true (sortedPairs m)) as [body|] eqn:Hb; [|done].
  cbn [mbind option_bind] in Hm. apply (inj Some) in Hm. subst d.
  cbn [app]. rewrite <-(assoc_L (++)). cbn [app].
  assert (Hall : Forall okPair (sortedPairs m)).
  { rewrite sortedPairs_perm. apply map_Forall_to_list in Hok.
    eapply Forall_impl; [done|]. by intros [k v]. }
  assert (Hlen : length (sortedPairs m) = size m).
  { by rewrite sortedPairs_perm, length_map_to_list. }
  destruct (sortedPairs m) as [|[k v] ps].
  - cbn in Hb. apply (inj Some) in Hb. subst body. apply parseValue_no_members.
  - pose proof Hb as Hb'. rewrite marshalMembers_cons in Hb'.
    destruct (marshalValue v) as [dv|]; [|done].
    destruct (marshalMembers false ps) as [rest|]; [|done].
    cbn [mbind option_bind app] in Hb'. apply (inj Some) in Hb'.
    assert (∃ r0, body = quote :: r0) as [r0 Hr0].
    { rewrite <-Hb'. unfold appendString. cbn [app]. eauto. }
    rewrite Hr0. cbn [app]. rewrite parseValue_members.
    change (quote :: r0 ++ ?x) with ((quote :: r0) ++ x). rewrite <-Hr0.
    apply (parseMembers_marshal ps (k, v) body [] r f); [done..|].
    cbn in Hlen. lia.
Qed.

Lemma marshalMembers_length (ps : list (string * Value)) (first : bool)
    (body : bytes) :
  marshalMembers first ps = Some body → (length ps ≤ length body)%nat.
Proof.
  revert first body. induction ps as [|[k v] ps IH]; intros first body Hb.
  - cbn. lia.
  - rewrite marshalMembers_cons in Hb.
    destruct (marshalValue v) as [d|]; [|done].
    destruct (marshalMembers false ps) as [rest|] eqn:Hr; [|done].
    cbn [mbind option_bind] in Hb. apply (inj Some) in Hb. subst body.
    specialize (IH _ _ Hr). unfold appendString.
    rewrite !length_app. cbn [length]. rewrite !length_app. cbn [length]. lia.
Qed.

Lemma parseValue_field (f : nat) (tag : string) (rest : bytes) :
  parseValue (S f) ("{"%char :: fieldName tag ++ rest) =
  parseMembers f (fieldName tag ++ rest) [].
Proof. reflexivity. Qed.

Lemma parseMembers_field_comma (f : nat) (tag : string) (text tail : bytes)
    (v : JSON) (acc : list (string * JSON)) :
  Forall plain (list_ascii_of_string tag) →
  (∀ r, parseValue f (text ++ r) = Some (v, r)) →
  parseMembers (S f) (fieldName tag ++ text ++ ","%char :: tail) acc =
  parseMembers f tail (acc ++ [(tag, v)]).
Proof.
  intros Htag Hv. unfold fieldName. cbn [app].
  rewrite <-(assoc_L (++)). cbn [app].
  erewrite parseMembers_comma; [|intros r; by apply unquote_plain|done].
  by rewrite string_of_list_ascii_of_string.
Qed.

Lemma parseMembers_field_brace (f : nat) (tag : string) (text tail : bytes)
    (v : JSON) (acc : list (string * JSON)) :
  Forall plain (list_ascii_of_string tag) →
  (∀ r, parseValue f (text ++ r) = Some (v, r)) →
  parseMembers (S f) (fieldName tag ++ text ++ "}"%char :: tail) acc =
  Some (JObj (acc ++ [(tag, v)]), tail).
Proof.
  intros Htag Hv. unfold fieldName. cbn [app].
  rewrite <-(assoc_L (++)). cbn [app].
  erewrite parseMembers_brace; [|intros r; by apply unquote_plain|done].
  by rewrite string_of_list_ascii_of_string.
Qed.

Lemma tag_plain (tag : string) :
  tag = "time" ∨ tag = "level" ∨ tag = "message" ∨ tag = "data" →
  Forall plain (list_ascii_of_string tag).
Proof.
  intros [-> |[-> |[-> | ->]]]; cbn; repeat constructor; unfold plain; cbn;
    lia.
Qed.

(** The four fields of a record, each value read by its own parser. *)
Lemma parseValue_record (f : nat) (T L M D r : bytes) (vt vl vm vd : JSON) :
  (∀ f r, parseValue (S f) (T ++ r) = Some (vt, r)) →
  (∀ f r, parseValue (S f) (L ++ r) = Some (vl, r)) →
  (∀ f r, parseValue (S f) (M ++ r) = Some (vm, r)) →
  (∀ r, parseValue (S (S f)) (D ++ r) = Some (vd, r)) →
  parseValue (7 + f)
    (("{"%char :: fieldName "time" ++ T ++
      ","%char :: fieldName "level" ++ L ++
      ","%char :: fieldName "message" ++ M ++
      ","%char :: fieldName "data" ++ D ++ ["}"%char]) ++ r) =
  Some (JObj [("time", vt); ("level", vl); ("message", vm); ("data", vd)], r).
Proof.
  intros Ht Hl Hm Hd. cbn [app].
  repeat (rewrite <-(assoc_L (++)); cbn [app]).
  change (7 + f)%nat with (S (S (S (S (S (S (S f))))))).
  rewrite parseValue_field.
  rewrite (parseMembers_field_comma _ _ _ _ vt) by (auto using tag_plain).
  rewrite (parseMembers_field_comma _ _ _ _ vl) by (auto using tag_plain).
  rewrite (parseMembers_field_comma _ _ _ _ vm) by (auto using tag_plain).
  rewrite (parseMembers_field_brace _ _ _ _ vd) by (auto using tag_plain).
  done.
Qed.

(** What [Unmarshal] makes of a record: the four fields in order, with the
    mapping as it was when its keys and strings are ASCII. *)
Lemma parseValue_marshalEntry (e : Entry) (line : bytes) (f : nat) (r : bytes) :
  marshalEntry e = Some line →
  map_Forall (λ k v, okPair (k, v)) (Data e) →
  (size (Data e) ≤ f)%nat →
  ∃ vt vl vm,
    parseValue (7 + f) (line ++ r) =
    Some (JObj [("time", vt); ("level", vl); ("message", vm);
                ("data", JObj (prod_map id jsonOf <$> sortedPairs (Data e)))],
          r).
Proof.
  intros Hline Hok Hf. unfold marshalEntry, marshalTime in Hline.
  destruct (formatRFC3339Nano (Time e)) as [ts|] eqn:Ht; [|done].
  destruct (marshalMap (Data e)) as [d|] eqn:Hd; [|done].
  cbn [mbind option_bind] in Hline. apply (inj Some) in Hline. subst line.
  apply formatRFC3339Nano_plain in Ht.
  destruct (parseValue_appendString (Level e)) as [l Hl].
  destruct (parseValue_appendString (Message e)) as [m Hm].
  exists (JStr (string_of_list_ascii ts)), (JStr l), (JStr m).
  apply parseValue_record; try done.
  - intros f' r'. cbn [app]. rewrite parseValue_quote, <-(assoc_L (++)).
    change ([quote] ++ r') with (quote :: r').
    by rewrite unquote_plain.
  - intros r'. by apply parseValue_marshalMap.
Qed.

Lemma objectMap_values (m : gmap string Value) :
  objectMap (prod_map id jsonOf <$> sortedPairs m) = jsonOf <$> m.
Proof.
  unfold objectMap.
  rewrite <-(list_to_map_to_list (jsonOf <$> m)).
  apply list_to_map_proper.
  - rewrite reverse_Permutation, sortedPairs_perm, <-list_fmap_compose.
    rewrite (list_fmap_ext (fst ∘ prod_map id jsonOf) fst) by (by intros []).
    apply NoDup_fst_map_to_list.
  - by rewrite reverse_Permutation, sortedPairs_perm, map_to_list_fmap.
Qed.

(** A record read back gives the mapping of the entry, for a mapping with
    ASCII keys whose values are ASCII strings, booleans or nil; white space
    after the record, such as the line terminator, does not matter. *)
Lemma record_round_trip (e : Entry) (line ws : bytes) :
  marshalEntry e = Some line →
  map_Forall (λ k v, okPair (k, v)) (Data e) →
  skipSpace ws = [] →
  Unmarshal (line ++ ws) ≫= dataOf = Some (jsonOf <$> Data e).
Proof.
  intros Hline Hok Hws. unfold Unmarshal.
  assert (Hlen : (6 + size (Data e) ≤ length (line ++ ws))%nat).
  { unfold marshalEntry in Hline.
    destruct (marshalTime (Time e)) as [t|]; [|done].
    destruct (marshalMap (Data e)) as [d|] eqn:Hd; [|done].
    cbn [mbind option_bind] in Hline. apply (inj Some) in Hline. subst line.
    unfold marshalMap in Hd.
    destruct (marshalMembers true (sortedPairs (Data e))) as [body|] eqn:Hb;
      [|done].
    cbn [mbind option_bind] in Hd. apply (inj Some) in Hd. subst d.
    apply marshalMembers_length in Hb.
    rewrite sortedPairs_perm, length_map_to_list in Hb.
    unfold fieldName, appendString.
    repeat first [rewrite length_app | rewrite length_cons
                 | progress cbn [length]].
    lia. }
  replace (S (length (line ++ ws)))
    with (7 + (length (line ++ ws) - 6))%nat by lia.
  destruct (parseValue_marshalEntry e line (length (line ++ ws) - 6) ws
              Hline Hok) as (vt & vl & vm & Hparse); [lia|].
  rewrite Hparse. cbn [mbind option_bind]. rewrite Hws.
  cbn [mbind option_bind].
  unfold dataOf, objectMap at 1. cbn [reverse rev_append].
  rewrite list_to_map_cons, lookup_insert_eq. cbn [snd].
  by rewrite objectMap_values.
Qed.

(** C8. An entry logged with the key/value list ["key", "value"], at any
    time, level and message: when it has a record, the record read back (with
    or without its line terminator) has under "data" the mapping
    {"key": "value"}. *)
Theorem logged_mapping_round_trips (now : Z) (level msg : string)
    (line : bytes) :
  recordOf (entryOf now level msg [VStr "key"; VStr "value"]) = Some line →
  Data (entryOf now level msg [VStr "key"; VStr "value"]) =
    {[ "key" := VStr "value" ]} ∧
  Unmarshal line ≫= dataOf = Some {[ "key" := JStr "value" ]} ∧
  Unmarshal (lineOf (entryOf now level msg [VStr "key"; VStr "value"]))
    ≫= dataOf = Some {[ "key" := JStr "value" ]}.
Proof.
  intros Hrec. set (e := entryOf now level msg [VStr "key"; VStr "value"]) in *.
  assert (Hdata : Data e = {[ "key" := VStr "value" ]}) by reflexivity.
  assert (Hline : marshalEntry e = Some line).
  { unfold recordOf in Hrec. destruct (marshalEntry e) as [d|]; [|done].
    cbn [mbind option_bind] in Hrec. by destruct (maxEntrySize <? len d). }
  assert (Hok : map_Forall (λ k v, okPair (k, v)) (Data e)).
  { rewrite Hdata. apply map_Forall_singleton.
    split; cbn; repeat constructor; unfold ascii7; cbn; lia. }
  assert (Hjson : jsonOf <$> Data e =@{gmap string JSON}
                  {[ "key" := JStr "value" ]}).
  { rewrite Hdata. by rewrite map_fmap_singleton. }
  split_and!; [done|..].
  - rewrite <-(app_nil_r line), <-Hjson. by apply record_round_trip.
  - unfold lineOf. rewrite Hrec, <-Hjson. by apply record_round_trip.
Qed.

Lemma logged_mapping_round_trips_witness :
  let e := entryOf 5 "info" "test message" [VStr "key"; VStr "value"] in
  Data e = {[ "key" := VStr "value" ]} ∧
  Unmarshal (default [] (recordOf e)) ≫= dataOf =
    Some {[ "key" := JStr "value" ]} ∧
  Unmarshal (lineOf e) ≫= dataOf = Some {[ "key" := JStr "value" ]}.
Proof.
  apply (logged_mapping_round_trips 5 "info" "test message").
  vm_compute. reflexivity.
Defined.

(** ** A record holds no line terminator *)















(** ** Accounting over the goroutines *)




Lemma step_stepped (s s' : System) (a : Action) :
  step s a = Some s' → crashed s = false ∧ stepped s a s'.
Proof.
  unfold step. destruct (crashed s); [done|]. intros H. split; [done|].
  destruct a as [i now pick|j tick|k|k]; cbn in H.
  - destruct (logs s !! i) as [pc|] eqn:Hpc; [|done]. cbn in H.
    destruct (stepLog now pick pc (shared s)) as [[pc' l]|] eqn:Hs; [|done].
    cbn in H. injection H as <-. by econstructor.
  - destruct (workers s !! j) as [pc|] eqn:Hpc; [|done]. cbn in H.
    destruct (stepWork tick pc (shared s)) as [[[pc' l] panic]|] eqn:Hs;
      [|done].
    cbn in H. injection H as <-. by econstructor.
  - destruct (closes s !! k) as [pc|] eqn:Hpc; [|done]. cbn in H.
    destruct (stepClose pc (shared s)) as [[pc' l]|] eqn:Hs; [|done].
    cbn in H. injection H as <-. by econstructor.
  - destruct (flushes s !! k) as [pc|] eqn:Hpc; [|done]. cbn in H.
    destruct (stepFlush pc (shared s)) as [[pc' l]|] eqn:Hs; [|done].
    cbn in H. injection H as <-. by econstructor.
Qed.






Lemma flushBatch_writer (l : Shared) :
  writer (flushBatch l) = (Flush (writer l)).1.
Proof.
  unfold flushBatch. destruct (Flush (writer l)) as [w e].
  by destruct (report_frame FailedFlush e (setWriter w l)) as (-> & _).
Qed.







(** ** What a step does to the flag and the counter *)

Lemma stepLog_frame now pick pc l pc' l' :
  stepLog now pick pc l = Some (pc', l') →
  closed l' = closed l ∧ writer l' = writer l ∧ mu l' = mu l ∧
  batchSize l' = batchSize l.
Proof.
  destruct pc; cbn; try destruct (poolGet pick (pool l)); intros H;
    by simplify_eq.
Qed.

Lemma stepWork_frame tick pc l pc' l' panic :
  stepWork tick pc l = Some (pc', l', panic) →
  closed l' = closed l ∧ batchSize l' = batchSize l ∧
  wg l' = wg l - match pc with
                 | WAdd b _ => Z.of_nat (length b)
                 | _ => 0
                 end.
Proof.
  destruct pc as [b|b|b|b k|rest b k|b k|k|]; cbn; intros H.
  - destruct tick; [simplify_eq; split_and!; auto; lia|].
    destruct (queue l); simplify_eq; cbn; split_and!; auto; lia.
  - simplify_eq; split_and!; auto; lia.
  - simplify_eq; split_and!; auto; lia.
  - destruct (mu l); simplify_eq; cbn; split_and!; auto; lia.
  - destruct rest as [|e rest]; simplify_eq.
    + destruct (flushBatch_frame l) as (_ & -> & -> & _ & -> & _).
      split_and!; auto; lia.
    + destruct (writeEntry_frame l e) as (_ & -> & -> & _ & ->).
      split_and!; auto; lia.
  - simplify_eq; cbn; split_and!; auto.
  - simplify_eq; cbn; split_and!; auto; lia.
  - done.
Qed.

Lemma stepClose_frame pc l pc' l' :
  stepClose pc l = Some (pc', l') →
  wg l' = wg l ∧ queue l' = queue l ∧ batchSize l' = batchSize l ∧
  (closed l = true → closed l' = true).
Proof.
  destruct pc; cbn; intros H.
  - destruct (closed l) eqn:Hc; by simplify_eq.
  - destruct (wg l =? 0); by simplify_eq.
  - destruct (mu l); by simplify_eq.
  - destruct (Flush (writer l)); by simplify_eq.
  - done.
Qed.

Lemma stepFlush_frame pc l pc' l' :
  stepFlush pc l = Some (pc', l') →
  wg l' = wg l ∧ queue l' = queue l ∧ batchSize l' = batchSize l ∧
  closed l' = closed l.
Proof.
  destruct pc; cbn; intros H.
  - destruct (wg l =? 0); by simplify_eq.
  - destruct (mu l); by simplify_eq.
  - by simplify_eq.
  - done.
Qed.

(** The closed flag, once set, stays set. *)
Lemma closed_step (s s' : System) (a : Action) :
  step s a = Some s' → closed (shared s) = true → closed (shared s') = true.
Proof.
  intros [_ Hs]%step_stepped Hc.
  destruct Hs as [i now pick pc pc' l Hpc Hstep|j tick pc pc' l panic Hpc Hstep
                 |k pc pc' l Hpc Hstep|k pc pc' l Hpc Hstep]; cbn.
  - apply stepLog_frame in Hstep as (-> & _). done.
  - apply stepWork_frame in Hstep as (-> & _). done.
  - apply stepClose_frame in Hstep as (_ & _ & _ & H). auto.
  - apply stepFlush_frame in Hstep as (_ & _ & _ & ->). done.
Qed.

Lemma closed_run (acts : list Action) (s s' : System) :
  run s acts = Some s' → closed (shared s) = true → closed (shared s') = true.
Proof.
  revert s. induction acts as [|a acts IH]; intros s Hrun Hc; cbn in Hrun.
  - by injection Hrun as <-.
  - destruct (step s a) as [s1|] eqn:Hstep; [|done]. cbn in Hrun.
    eapply IH; [done|]. by eapply closed_step.
Qed.

Lemma unstarted_step (s s' : System) (a : Action) :
  unstarted s → step s a = Some s' → unstarted s'.
Proof.
  intros Hu Hstep Hopen.
  assert (Hopen0 : closed (shared s) = false).
  { destruct (closed (shared s)) eqn:Hc; [|done].
    by rewrite (closed_step _ _ _ Hstep Hc) in Hopen. }
  specialize (Hu Hopen0). apply step_stepped in Hstep as [_ Hs].
  destruct Hs as [i now pick pc pc' l Hpc Hstep|j tick pc pc' l panic Hpc Hstep
                 |k pc pc' l Hpc Hstep|k pc pc' l Hpc Hstep]; cbn in *;
    try done.
  rewrite Forall_lookup in Hu. rewrite (Hu _ _ Hpc) in Hstep. cbn in Hstep.
  rewrite Hopen0 in Hstep. by simplify_eq.
Qed.

Lemma unstarted_run (acts : list Action) (s s' : System) :
  unstarted s → run s acts = Some s' → unstarted s'.
Proof.
  revert s. induction acts as [|a acts IH]; intros s Hu Hrun; cbn in Hrun.
  - by injection Hrun as <-.
  - destruct (step s a) as [s1|] eqn:Hstep; [|done]. cbn in Hrun.
    eapply IH; [|done]. by eapply unstarted_step.
Qed.

Lemma unstarted_boot output pool0 nworkers calls ncloses nflushes :
  unstarted (boot output pool0 nworkers calls ncloses nflushes).
Proof. intros _. by apply Forall_replicate. Qed.

(** ** The buffer over the steps of the goroutines *)

Lemma fitted_step (s s' : System) (a : Action) :
  fitted s → step s a = Some s' → fitted s'.
Proof.
  unfold fitted. intros Hf [_ Hs]%step_stepped.
  destruct Hs as [i now pick pc pc' l Hpc Hstep|j tick pc pc' l panic Hpc Hstep
                 |k pc pc' l Hpc Hstep|k pc pc' l Hpc Hstep]; cbn.
  - by apply stepLog_frame in Hstep as (_ & -> & _).
  - destruct pc as [b|b|b|b k|rest b k|b k|k|]; cbn in Hstep.
    + destruct tick; [by simplify_eq|]. destruct (queue (shared s));
        by simplify_eq.
    + by simplify_eq.
    + by simplify_eq.
    + destruct (mu (shared s)); by simplify_eq.
    + destruct rest as [|e rest]; simplify_eq.
      * rewrite flushBatch_writer. by apply Flush_sized.
      * by apply writeEntry_sized.
    + by simplify_eq.
    + by simplify_eq.
    + done.
  - destruct pc; cbn in Hstep.
    + destruct (closed (shared s)); by simplify_eq.
    + destruct (wg (shared s) =? 0); by simplify_eq.
    + destruct (mu (shared s)); by simplify_eq.
    + pose proof (Flush_sized _ Hf) as (? & _).
      destruct (Flush (writer (shared s))); by simplify_eq.
    + done.
  - destruct pc; cbn in Hstep.
    + destruct (wg (shared s) =? 0); by simplify_eq.
    + destruct (mu (shared s)); by simplify_eq.
    + simplify_eq. cbn. by apply Flush_sized.
    + done.
Qed.

Lemma fitted_run (output : option Sink) (pool0 : list Entry) (nworkers : nat)
    (calls : list Call) (ncloses nflushes : nat) (acts : list Action)
    (s : System) :
  run (boot output pool0 nworkers calls ncloses nflushes) acts = Some s →
  fitted s.
Proof.
  assert (H0 : fitted (boot output pool0 nworkers calls ncloses nflushes)).
  { by split. }
  revert H0. generalize (boot output pool0 nworkers calls ncloses nflushes).
  induction acts as [|a acts IH]; intros s0 H0 Hrun; cbn in Hrun.
  - by injection Hrun as <-.
  - destruct (step s0 a) as [s1|] eqn:Hstep; [|done]. cbn in Hrun.
    eapply IH; [|done]. by eapply fitted_step.
Qed.

(** ** After the calls have returned *)









Lemma run_app (acts1 acts2 : list Action) (s : System) :
  run s (acts1 ++ acts2) = s1 ← run s acts1; run s1 acts2.
Proof.
  revert s. induction acts1 as [|a acts1 IH]; intros s; [done|].
  cbn. destruct (step s a) as [s1|]; [|done]. cbn. apply IH.
Qed.



(** ** [writeBatch] and the steps of a worker *)

Lemma sinkless_setMu (m : bool) (l : Shared) (mk : error → Diag)
    (e : option error) (w : Writer) :
  report mk e (setWriter w (setMu m l)) = setMu m (report mk e (setWriter w l)).
Proof. by destruct e as [[]|]. Qed.

Lemma writeEntry_setMu (m : bool) (l : Shared) (e : Entry) :
  writeEntry (setMu m l) e = setMu m (writeEntry l e).
Proof.
  unfold writeEntry. destruct (marshalEntry e) as [data|]; [|done].
  destruct (maxEntrySize <? len data); [done|].
  change (writer (setMu m l)) with (writer l).
  assert (Hrest : ∀ l1,
    (let '(w2, (_, e2)) := Write (writer (setMu m l1)) data in
     let l2 := report FailedWrite e2 (setWriter w2 (setMu m l1)) in
     let '(w3, e3) := WriteByte (writer l2) newline in
     let l3 := report FailedNewline e3 (setWriter w3 l2) in
     poolPut (resetEntry e) l3) =
    setMu m
      (let '(w2, (_, e2)) := Write (writer l1) data in
       let l2 := report FailedWrite e2 (setWriter w2 l1) in
       let '(w3, e3) := WriteByte (writer l2) newline in
       let l3 := report FailedNewline e3 (setWriter w3 l2) in
       poolPut (resetEntry e) l3)).
  { intros l1. change (writer (setMu m l1)) with (writer l1).
    destruct (Write (writer l1) data) as [w2 [n2 e2]]. cbn zeta.
    rewrite sinkless_setMu.
    change (writer (setMu m ?x)) with (writer x).
    destruct (WriteByte _ newline) as [w3 e3]. by rewrite sinkless_setMu. }
  destruct (Available (writer l) <? len data + 1).
  - destruct (Flush (writer l)) as [w e1]. rewrite sinkless_setMu.
    apply Hrest.
  - apply Hrest.
Qed.

Lemma foldl_writeEntry_setMu (m : bool) (batch : list Entry) (l : Shared) :
  foldl writeEntry (setMu m l) batch = setMu m (foldl writeEntry l batch).
Proof.
  revert l. induction batch as [|e es IH]; intros l; [done|].
  cbn [foldl]. by rewrite writeEntry_setMu, IH.
Qed.

Lemma flushBatch_setMu (m : bool) (l : Shared) :
  flushBatch (setMu m l) = setMu m (flushBatch l).
Proof.
  unfold flushBatch. change (writer (setMu m l)) with (writer l).
  destruct (Flush (writer l)) as [w e]. apply sinkless_setMu.
Qed.

Lemma step_work (s : System) (j : nat) (tick : bool) (pc pc' : WorkPc)
    (l : Shared) (panic : bool) :
  crashed s = false → workers s !! j = Some pc →
  stepWork tick pc (shared s) = Some (pc', l, panic) →
  step s (AWork j tick) =
  Some (mkSystem l (logs s) (<[j := pc']> (workers s)) (closes s) (flushes s)
          panic).
Proof. intros Hlive Hj Hs. unfold step. rewrite Hlive. cbn. rewrite Hj. cbn. by rewrite Hs. Qed.

(** The steps of a worker through [writeBatch], taken one after the other
    with nothing in between, do to the logger what [writeBatch] does. *)
Lemma worker_writeBatch (s : System) (j : nat) (batch : list Entry) (k : After) :
  crashed s = false → mu (shared s) = false → batch ≠ [] →
  workers s !! j = Some (WLock batch k) →
  0 ≤ wg (shared s) - Z.of_nat (length batch) →
  run s (replicate (4 + length batch) (AWork j false)) =
  Some (mkSystem (writeBatch (shared s) batch) (logs s)
          (<[j := after k]> (workers s)) (closes s) (flushes s) false).
Proof.
  intros Hlive Hmu Hne Hj Hwg.
  assert (Hlt : (j < length (workers s))%nat) by (by eapply lookup_lt_Some).
  assert (Hrange : ∀ rest l ws,
    ws !! j = Some (WRange rest batch k) →
    run (mkSystem l (logs s) ws (closes s) (flushes s) false)
        (replicate (length rest) (AWork j false)) =
    Some (mkSystem (foldl writeEntry l rest) (logs s)
            (<[j := WRange [] batch k]> ws) (closes s) (flushes s) false)).
  { induction rest as [|e rest IH]; intros l ws Hws.
    - cbn. by rewrite list_insert_id.
    - cbn [length replicate run].
      erewrite step_work; [|done|exact Hws|done]. cbn [mbind option_bind shared logs workers closes flushes crashed].
      rewrite IH by (apply list_lookup_insert_eq; by eapply lookup_lt_Some).
      by rewrite list_insert_insert_eq. }
  replace (4 + length batch)%nat with (S (length batch + 3))%nat by lia.
  cbn [replicate run].
  erewrite step_work; [|done|exact Hj|by cbn; rewrite Hmu].
  cbn [mbind option_bind shared logs workers closes flushes crashed]. rewrite replicate_add, run_app.
  rewrite Hrange by (by apply list_lookup_insert_eq). cbn [mbind option_bind shared logs workers closes flushes crashed].
  rewrite list_insert_insert_eq. cbn [replicate run].
  erewrite step_work; [|done|by apply list_lookup_insert_eq|done].
  cbn [mbind option_bind shared logs workers closes flushes crashed]. rewrite list_insert_insert_eq.
  erewrite step_work; [|done|by apply list_lookup_insert_eq|done].
  cbn [mbind option_bind shared logs workers closes flushes crashed]. rewrite list_insert_insert_eq.
  rewrite foldl_writeEntry_setMu, flushBatch_setMu.
  set (l1 := flushBatch (foldl writeEntry (shared s) batch)).
  assert (wg l1 = wg (shared s) ∧ mu l1 = false) as [Hw1 Hm1].
  { subst l1.
    destruct (flushBatch_frame (foldl writeEntry (shared s) batch))
      as (_ & -> & _ & -> & _).
    by destruct (foldl_writeEntry_frame batch (shared s))
      as (_ & -> & _ & -> & _). }
  change (wg (setMu true l1)) with (wg l1). rewrite Hw1.
  destruct (Z.ltb_spec (wg (shared s) - Z.of_nat (length batch)) 0); [lia|].
  erewrite step_work; [|done|by apply list_lookup_insert_eq|done].
  cbn [mbind option_bind shared logs workers closes flushes crashed]. rewrite list_insert_insert_eq. do 2 f_equal.
  unfold writeBatch. destruct batch as [|e es]; [done|]. fold l1.
  rewrite Hw1. destruct l1. cbn in *. by subst.
Qed.

(** ** [Close] *)

Lemma single_step (s s' : System) (a : Action) :
  unstarted s → single s → step s a = Some s' → single s'.
Proof.
  intros Hu Hsingle [_ Hs]%step_stepped.
  destruct Hs as [i now pick pc pc' l Hpc Hstep|j tick pc pc' l panic Hpc Hstep
                 |k pc pc' l Hpc Hstep|k pc pc' l Hpc Hstep]; try done.
  assert (Hold : ∀ k1 pc1, <[k := pc']> (closes s) !! k1 = Some pc1 →
            effective pc1 →
            (k1 ≠ k ∧ closes s !! k1 = Some pc1) ∨
            (k1 = k ∧ effective pc) ∨
            (k1 = k ∧ Forall (λ pc, pc = CloseCall) (closes s))).
  { intros k1 pc1 [(<- & <- & _)|[Hne Hk1]]%list_lookup_insert_Some Heff;
      [|left; done].
    right. destruct pc; cbn in Hstep.
    - destruct (closed (shared s)) eqn:Hc; simplify_eq; [done|].
      right. split; [done|]. by apply Hu.
    - left. done.
    - left. done.
    - left. done.
    - done. }
  intros k1 k2 pc1 pc2 H1 H2 E1 E2. cbn in H1, H2.
  destruct (Hold _ _ H1 E1) as [[N1 O1]|[[-> P1]|[-> A1]]],
           (Hold _ _ H2 E2) as [[N2 O2]|[[-> P2]|[-> A2]]]; try done.
  - by eapply Hsingle.
  - by eapply (Hsingle k1 k).
  - rewrite Forall_lookup in A2. rewrite (A2 _ _ O1) in E1. done.
  - by eapply (Hsingle k k2).
  - rewrite Forall_lookup in A1. rewrite (A1 _ _ O2) in E2. done.
Qed.

Lemma single_run (acts : list Action) (s s' : System) :
  unstarted s → single s → run s acts = Some s' → single s'.
Proof.
  revert s. induction acts as [|a acts IH]; intros s Hu Hs Hrun; cbn in Hrun.
  - by injection Hrun as <-.
  - destruct (step s a) as [s1|] eqn:Hstep; [|done]. cbn in Hrun.
    eapply IH; [| |done].
    + by eapply unstarted_step.
    + by eapply single_step.
Qed.

Lemma single_boot output pool0 nworkers calls ncloses nflushes :
  single (boot output pool0 nworkers calls ncloses nflushes).
Proof.
  intros k1 k2 pc1 pc2 [-> _]%lookup_replicate. done.
Qed.

Lemma Flush_flushed (b : Writer) : flushed b (Flush b).1 (Flush b).2.
Proof.
  unfold Flush. destruct (werr b) as [e|] eqn:He.
  { cbn. split; [done|]. by left. }
  destruct (Z.eqb_spec (len (buf b)) 0) as [H0|H0].
  { apply len_zero in H0. cbn. by rewrite H0, app_nil_r. }
  unfold sinkWrite. destruct (room (wr b)) as [r|] eqn:Hr.
  - set (n := Z.max 0 (Z.min r (len (buf b)))).
    destruct (Z.ltb_spec n (len (buf b))) as [Hlt|Hge]; cbn.
    + split; [done|]. right. split_and!; try done.
      exists (Z.to_nat n). split_and!; try done. unfold len in Hlt. lia.
    + split_and!; try done. rewrite take_len; [done|]. subst n. lia.
  - rewrite Z.ltb_irrefl. cbn. done.
Qed.

Lemma run_closes_length (acts : list Action) (s s' : System) :
  run s acts = Some s' → length (closes s') = length (closes s).
Proof.
  revert s. induction acts as [|a acts IH]; intros s Hrun; cbn in Hrun.
  - by injection Hrun as <-.
  - destruct (step s a) as [s1|] eqn:Hstep; [|done]. cbn in Hrun.
    rewrite (IH _ Hrun). apply step_stepped in Hstep as [_ Hs].
    destruct Hs; cbn; try done. apply length_insert.
Qed.

(** Only its own steps move a call of [Close]. *)
Lemma closes_step_other (s s' : System) (a : Action) (k : nat) :
  step s a = Some s' → a ≠ AClose k → closes s' !! k = closes s !! k.
Proof.
  intros [_ Hs]%step_stepped Hne. destruct Hs; cbn; try done.
  apply list_lookup_insert_ne. congruence.
Qed.

Lemma close_step_inv (s s' : System) (k : nat) (pc : ClosePc) :
  step s (AClose k) = Some s' → closes s !! k = Some pc →
  ∃ pc' l', stepClose pc (shared s) = Some (pc', l') ∧ s' = closeTo k pc' l' s ∧
            closes s' !! k = Some pc'.
Proof.
  intros Hstep Hk. unfold step in Hstep. destruct (crashed s); [done|].
  cbn in Hstep. rewrite Hk in Hstep. cbn in Hstep.
  destruct (stepClose pc (shared s)) as [[pc' l']|]; [|done]. cbn in Hstep.
  injection Hstep as <-. exists pc', l'. split_and!; try done. cbn.
  apply list_lookup_insert_eq. by eapply lookup_lt_Some.
Qed.

(** The first step of a call of [Close] in a run that moves it. *)
Lemma close_first_step (acts : list Action) (s s' : System) (k : nat)
    (pc0 : ClosePc) :
  run s acts = Some s' → closes s !! k = Some pc0 →
  closes s' !! k ≠ Some pc0 →
  ∃ acts1 acts2 s1 s1',
    acts = acts1 ++ AClose k :: acts2 ∧ (AClose k ∉ acts1) ∧
    run s acts1 = Some s1 ∧ closes s1 !! k = Some pc0 ∧
    step s1 (AClose k) = Some s1' ∧ run s1' acts2 = Some s'.
Proof.
  revert s. induction acts as [|a acts IH]; intros s Hrun Hk Hne; cbn in Hrun.
  - injection Hrun as <-. done.
  - destruct (step s a) as [s1|] eqn:Hstep; [|done]. cbn in Hrun.
    destruct (decide (a = AClose k)) as [->|Ha].
    + exists [], acts, s, s1. split_and!; try done. apply not_elem_of_nil.
    + destruct (IH s1 Hrun) as (acts1 & acts2 & s2 & s2' & -> & Hnot & Hr1 & Hk1
                                   & Hs2 & Hr2); [|done|].
      { by rewrite (closes_step_other _ _ _ _ Hstep Ha). }
      exists (a :: acts1), acts2, s2, s2'. split_and!; try done.
      * apply not_elem_of_cons. done.
      * cbn. by rewrite Hstep.
Qed.

(** A call of [Close] that has returned takes no further step. *)
Lemma close_done_stays (acts : list Action) (s s' : System) (k : nat)
    (swapped : bool) (err : option error) :
  run s acts = Some s' → closes s !! k = Some (CloseDone swapped err) →
  closes s' !! k = Some (CloseDone swapped err) ∧ AClose k ∉ acts.
Proof.
  revert s. induction acts as [|a acts IH]; intros s Hrun Hk; cbn in Hrun.
  - injection Hrun as <-. split; [done|]. apply not_elem_of_nil.
  - destruct (step s a) as [s1|] eqn:Hstep; [|done]. cbn in Hrun.
    destruct (decide (a = AClose k)) as [->|Ha].
    + destruct (close_step_inv _ _ _ _ Hstep Hk) as (? & ? & ? & _). done.
    + destruct (IH s1 Hrun) as [? ?].
      { by rewrite (closes_step_other _ _ _ _ Hstep Ha). }
      split; [done|]. by apply not_elem_of_cons.
Qed.

(** A call of [Close] that lost the compare-and-swap returns nil. *)
Lemma declined_run (acts : list Action) (s s' : System) :
  Forall (λ pc, ∀ e, pc = CloseDone false e → e = None) (closes s) →
  run s acts = Some s' →
  Forall (λ pc, ∀ e, pc = CloseDone false e → e = None) (closes s').
Proof.
  revert s. induction acts as [|a acts IH]; intros s Hd Hrun; cbn in Hrun.
  - by injection Hrun as <-.
  - destruct (step s a) as [s1|] eqn:Hstep; [|done]. cbn in Hrun.
    eapply IH; [|done]. apply step_stepped in Hstep as [_ Hs].
    destruct Hs as [| |k pc pc' l Hpc Hstep|]; cbn; try done.
    apply Forall_insert; [done|]. intros e ->.
    destruct pc; cbn in Hstep.
    + destruct (closed (shared s)); by simplify_eq.
    + destruct (wg (shared s) =? 0); by simplify_eq.
    + destruct (mu (shared s)); by simplify_eq.
    + destruct (Flush (writer (shared s))); by simplify_eq.
    + done.
Qed.

(** C4. Take a run of the logger, over any sink, in which a call of [Close]
    has returned as the one that swapped the flag.  Then the flag is set;
    every other call of [Close] has not started or has returned nil; and the
    call took exactly four steps in the run: the compare-and-swap, in a state
    with the flag unset; the return from [l.wg.Wait()], in a state with the
    flag set and the counter at zero; [l.mu.Lock()], in a state with the mutex
    free; and one flush of the writer, after which the mutex is free again
    and queue and counter are as before.  What the call returned is the
    result of that flush: nil when the whole buffer was given to the sink and
    the buffer is empty, and otherwise the error kept in the writer, which is
    the error of the sink that took only a part of the buffer, or an error
    that the writer had from an earlier write.  What a call of [log] or of
    the package function [Flush] comes back with does not depend on the
    writer: no error of the sink is returned by them. *)
Theorem close_first_call_takes_effect
    (output : option Sink) (pool0 : list Entry) (nworkers : nat)
    (calls : list Call)
    (ncloses nflushes : nat) (acts : list Action) (s : System) (k : nat)
    (err : option error) :
  run (boot output pool0 nworkers calls ncloses nflushes) acts = Some s →
  closes s !! k = Some (CloseDone true err) →
  closed (shared s) = true ∧
  (∀ k' pc', closes s !! k' = Some pc' → k' ≠ k →
             pc' = CloseCall ∨ pc' = CloseDone false None) ∧
  (∃ acts1 acts2 acts3 acts4 acts5 s1 s2 s3 s4 s5,
     acts = acts1 ++ AClose k :: acts2 ++ AClose k :: acts3 ++
            AClose k :: acts4 ++ AClose k :: acts5 ∧
     (AClose k ∉ acts1 ++ acts2 ++ acts3 ++ acts4 ++ acts5) ∧
     run (boot output pool0 nworkers calls ncloses nflushes) acts1 = Some s1 ∧
     closed (shared s1) = false ∧
     run s1 (AClose k :: acts2) = Some s2 ∧
     closed (shared s2) = true ∧ wg (shared s2) = 0 ∧
     run s2 (AClose k :: acts3) = Some s3 ∧ mu (shared s3) = false ∧
     run s3 (AClose k :: acts4) = Some s4 ∧
     step s4 (AClose k) = Some s5 ∧ run s5 acts5 = Some s ∧
     flushed (writer (shared s4)) (writer (shared s5)) err ∧
     queue (shared s5) = queue (shared s4) ∧
     wg (shared s5) = wg (shared s4) ∧ mu (shared s5) = false) ∧
  (∀ now pick pc l w,
     fst <$> stepLog now pick pc (setWriter w l) =
     fst <$> stepLog now pick pc l) ∧
  (∀ pc l w, fst <$> stepFlush pc (setWriter w l) = fst <$> stepFlush pc l).
Proof.
  intros Hrun Hk.
  set (s0 := boot output pool0 nworkers calls ncloses nflushes) in *.
  assert (Hk0 : closes s0 !! k = Some CloseCall).
  { apply lookup_replicate_2.
    apply lookup_lt_Some in Hk. rewrite (run_closes_length _ _ _ Hrun) in Hk.
    cbn in Hk. by rewrite length_replicate in Hk. }
  (* the compare-and-swap *)
  destruct (close_first_step _ _ _ _ _ Hrun Hk0)
    as (acts1 & r1 & s1 & s1' & -> & Hn1 & Hr1 & Hk1 & Hs1 & Hrun1).
  { by rewrite Hk. }
  destruct (close_step_inv _ _ _ _ Hs1 Hk1) as (pc1 & l1 & Hc1 & -> & Hk1').
  cbn in Hc1. destruct (closed (shared s1)) eqn:Hopen.
  { simplify_eq.
    destruct (close_done_stays _ _ _ _ _ _ Hrun1 Hk1') as [Hd _]. congruence. }
  simplify_eq.
  (* the return from Wait *)
  destruct (close_first_step _ _ _ _ _ Hrun1 Hk1')
    as (acts2 & r2 & s2 & s2' & -> & Hn2 & Hr2 & Hk2 & Hs2 & Hrun2).
  { by rewrite Hk. }
  assert (Hcl2 : closed (shared s2) = true) by (by eapply closed_run).
  destruct (close_step_inv _ _ _ _ Hs2 Hk2) as (pc2 & l2 & Hc2 & -> & Hk2').
  cbn in Hc2. destruct (Z.eqb_spec (wg (shared s2)) 0) as [Hwg|]; [|done].
  simplify_eq.
  (* the lock *)
  destruct (close_first_step _ _ _ _ _ Hrun2 Hk2')
    as (acts3 & r3 & s3 & s3' & -> & Hn3 & Hr3 & Hk3 & Hs3 & Hrun3).
  { by rewrite Hk. }
  destruct (close_step_inv _ _ _ _ Hs3 Hk3) as (pc3 & l3 & Hc3 & -> & Hk3').
  cbn in Hc3. destruct (mu (shared s3)) eqn:Hmu; [done|]. simplify_eq.
  (* the flush *)
  destruct (close_first_step _ _ _ _ _ Hrun3 Hk3')
    as (acts4 & acts5 & s4 & s4' & -> & Hn4 & Hr4 & Hk4 & Hs4 & Hrun4).
  { by rewrite Hk. }
  destruct (close_step_inv _ _ _ _ Hs4 Hk4) as (pc4 & l4 & Hc4 & Hs4' & Hk4').
  cbn in Hc4. pose proof (Flush_flushed (writer (shared s4))) as Hfl.
  destruct (Flush (writer (shared s4))) as [w e] eqn:HF. simplify_eq.
  destruct (close_done_stays _ _ _ _ _ _ Hrun4 Hk4') as [Hd Hn5].
  rewrite Hk in Hd. simplify_eq.
  pose proof (unstarted_run _ _ _ (unstarted_boot _ _ _ _ _ _) Hrun) as Hu.
  pose proof (single_run _ _ _ (unstarted_boot _ _ _ _ _ _)
                (single_boot _ _ _ _ _ _) Hrun) as Hsingle.
  assert (Hdecl : Forall (λ pc, ∀ e, pc = CloseDone false e → e = None)
                    (closes s)).
  { eapply declined_run; [|exact Hrun]. by apply Forall_replicate. }
  split_and!.
  - destruct (closed (shared s)) eqn:Hc; [done|].
    specialize (Hu Hc). rewrite Forall_lookup in Hu. by specialize (Hu _ _ Hk).
  - intros k' pc' Hk' Hne. rewrite Forall_lookup in Hdecl.
    specialize (Hdecl _ _ Hk').
    destruct pc' as [| | | |[] e']; try (exfalso; apply Hne;
      by apply (Hsingle k' k _ _ Hk' Hk)); [by left|].
    right. by rewrite (Hdecl e' eq_refl).
  - exists acts1, acts2, acts3, acts4, acts5, s1, s2, s3, s4.
    eexists. split_and!; try done.
    + rewrite !not_elem_of_app. done.
    + cbn [run]. rewrite Hs1. exact Hr2.
    + cbn [run]. rewrite Hs2. exact Hr3.
    + cbn [run]. rewrite Hs3. exact Hr4.
  - intros now pick pc l w'. destruct pc; cbn; try done.
    by destruct (poolGet pick (pool l)).
  - intros pc l w'. destruct pc; cbn; try done.
    + by destruct (wg l =? 0).
    + by destruct (mu l).
Qed.

(** C10. In every state a run reaches over any sink, whatever the counter,
    the mutex, the buffer and the error of the writer are: once some call of
    [Close] has started, a call of [Close] that has not started yet takes one
    step, enabled at once, that returns nil, and every field of the logger,
    pool and standard error included, is after the step what it was
    before. *)
Theorem close_again_returns_nil
    (output : option Sink) (pool0 : list Entry) (nworkers : nat)
    (calls : list Call)
    (ncloses nflushes : nat) (acts : list Action) (s : System) (k0 k : nat)
    (pc0 : ClosePc) :
  run (boot output pool0 nworkers calls ncloses nflushes) acts = Some s →
  crashed s = false →
  closes s !! k0 = Some pc0 → pc0 ≠ CloseCall →
  closes s !! k = Some CloseCall →
  step s (AClose k) = Some (closeTo k (CloseDone false None) (shared s) s).
Proof.
  intros Hrun Hlive Hk0 Hstarted Hk.
  pose proof (unstarted_run _ _ _ (unstarted_boot _ _ _ _ _ _) Hrun) as Hu.
  assert (Hc : closed (shared s) = true).
  { destruct (closed (shared s)) eqn:Hc; [done|].
    specialize (Hu Hc). rewrite Forall_lookup in Hu.
    by specialize (Hu _ _ Hk0). }
  unfold step. rewrite Hlive. cbn. rewrite Hk. cbn. by rewrite Hc.
Qed.

(** ** [log] on a closed logger *)

Lemma dropping_step (s s' : System) (a : Action) (i : nat) (c : Call)
    (pc : LogPc) :
  closed (shared s) = true → logs s !! i = Some pc → dropping c pc →
  step s a = Some s' → ∃ pc', logs s' !! i = Some pc' ∧ dropping c pc'.
Proof.
  intros Hc Hi Hdrop [_ Hs]%step_stepped.
  destruct Hs as [i' now pick pc0 pc' l Hpc Hstep| | |]; cbn;
    try (by exists pc).
  destruct (decide (i' = i)) as [->|Hne].
  2:{ exists pc. by rewrite list_lookup_insert_ne. }
  rewrite list_lookup_insert_eq by (by eapply lookup_lt_Some).
  exists pc'. split; [done|]. simplify_eq.
  destruct Hdrop as [->|[[now' [-> | ->]]| ->]]; cbn in Hstep.
  - destruct (poolGet pick (pool (shared s))) as [e p]. simplify_eq.
    right; left. exists now. left. by rewrite fillEntry_entryOf.
  - rewrite Hc in Hstep. simplify_eq. right; left. exists now'. by right.
  - simplify_eq. by right; right.
  - done.
Qed.

Lemma dropping_run (acts : list Action) (s s' : System) (i : nat) (c : Call)
    (pc : LogPc) :
  closed (shared s) = true → logs s !! i = Some pc → dropping c pc →
  run s acts = Some s' → ∃ pc', logs s' !! i = Some pc' ∧ dropping c pc'.
Proof.
  revert s pc. induction acts as [|a acts IH]; intros s pc Hc Hi Hd Hrun;
    cbn in Hrun.
  - injection Hrun as <-. by exists pc.
  - destruct (step s a) as [s1|] eqn:Hstep; [|done]. cbn in Hrun.
    destruct (dropping_step _ _ _ _ _ _ Hc Hi Hd Hstep) as (pc1 & Hi1 & Hd1).
    eapply IH; [|done..]. by eapply closed_step.
Qed.

(** C5. Over any sink, take a state that a run reaches and in which a call
    of [Close] has returned, and a call of [log] that has not started yet.
    However the run goes on: the closed flag stays set; the call is never
    at a point where it enqueues, adds to the counter, or has returned with
    its entry accepted; until it has returned its next step is enabled and
    leaves the queue, the counter and the writer (buffer and sink) as they
    are; and its last step hands the entry to the pool. *)
Theorem log_after_close_is_dropped
    (output : option Sink) (pool0 : list Entry) (nworkers : nat)
    (calls : list Call)
    (ncloses nflushes : nat) (acts acts' : list Action) (s s' : System)
    (k i : nat) (swapped : bool) (err : option error) (c : Call) :
  run (boot output pool0 nworkers calls ncloses nflushes) acts = Some s →
  closes s !! k = Some (CloseDone swapped err) →
  logs s !! i = Some (toCall c) →
  run s acts' = Some s' →
  closed (shared s') = true ∧
  ∃ pc, logs s' !! i = Some pc ∧ dropping c pc ∧
    (crashed s' = false → ∀ now pick,
       match pc with
       | LogDone _ => True
       | _ =>
           ∃ s'', step s' (ALog i now pick) = Some s'' ∧
             queue (shared s'') = queue (shared s') ∧
             wg (shared s'') = wg (shared s') ∧
             writer (shared s'') = writer (shared s') ∧
             match pc with
             | LogPut e =>
                 pool (shared s'') = e :: pool (shared s') ∧
                 logs s'' !! i = Some (LogDone None)
             | _ => True
             end
       end).
Proof.
  intros Hrun Hk Hi Hrun'.
  pose proof (unstarted_run _ _ _ (unstarted_boot _ _ _ _ _ _) Hrun) as Hu.
  assert (Hc : closed (shared s) = true).
  { destruct (closed (shared s)) eqn:Hc; [done|].
    specialize (Hu Hc). rewrite Forall_lookup in Hu.
    by specialize (Hu _ _ Hk). }
  pose proof (closed_run _ _ _ Hrun' Hc) as Hc'. split; [done|].
  destruct (dropping_run _ _ _ i c _ Hc Hi (or_introl eq_refl) Hrun')
    as (pc & Hpc & Hdrop).
  exists pc. split_and!; [done..|]. intros Hlive now pick.
  assert (Hlen : (i < length (logs s'))%nat) by (by eapply lookup_lt_Some).
  destruct Hdrop as [->|[[now' [-> | ->]]| ->]]; [..|done];
    unfold step; rewrite Hlive; cbn; rewrite Hpc; cbn.
  - destruct (poolGet pick (pool (shared s'))) as [e p]. cbn.
    eexists. split; [done|]. by split_and!.
  - rewrite Hc'. cbn. eexists. split; [done|]. by split_and!.
  - eexists. split; [done|]. cbn. split_and!; try done.
    by rewrite list_lookup_insert_eq.
Qed.

(** ** Runs of the logger *)




Lemma close_first_call_takes_effect_witness :
  closes afterClose !! 0%nat = Some (CloseDone true (Some ErrSink)) ∧
  closed (shared afterClose) = true ∧
  (∀ k' pc', closes afterClose !! k' = Some pc' → k' ≠ 0%nat →
             pc' = CloseCall ∨ pc' = CloseDone false None).
Proof.
  split; [vm_compute; reflexivity|].
  destruct (close_first_call_takes_effect (Some (limitedSink 0)) [] 1
              [callA; callB] 2 1 (failingRun ++ [AClose 0]) afterClose 0
              (Some ErrSink)) as (H1 & H2 & _).
  - vm_compute. reflexivity.
  - vm_compute. reflexivity.
  - split; [exact H1|exact H2].
Defined.

Lemma close_again_returns_nil_witness :
  step afterClose (AClose 1) =
  Some (closeTo 1 (CloseDone false None) (shared afterClose) afterClose) ∧
  closes afterClose !! 0%nat = Some (CloseDone true (Some ErrSink)).
Proof.
  split; [|vm_compute; reflexivity].
  apply (close_again_returns_nil (Some (limitedSink 0)) [] 1 [callA; callB] 2 1
           (failingRun ++ [AClose 0]) afterClose 0 1
           (CloseDone true (Some ErrSink))).
  - vm_compute. reflexivity.
  - vm_compute. reflexivity.
  - vm_compute. reflexivity.
  - discriminate.
  - vm_compute. reflexivity.
Defined.

Lemma log_after_close_is_dropped_witness :
  closed (shared lateLog) = true ∧
  ∃ pc, logs lateLog !! 1%nat = Some pc ∧ dropping callB pc ∧
    (crashed lateLog = false → ∀ now pick,
       match pc with
       | LogDone _ => True
       | _ =>
           ∃ s'', step lateLog (ALog 1 now pick) = Some s'' ∧
             queue (shared s'') = queue (shared lateLog) ∧
             wg (shared s'') = wg (shared lateLog) ∧
             writer (shared s'') = writer (shared lateLog) ∧
             match pc with
             | LogPut e =>
                 pool (shared s'') = e :: pool (shared lateLog) ∧
                 logs s'' !! 1%nat = Some (LogDone None)
             | _ => True
             end
       end).
Proof.
  apply (log_after_close_is_dropped (Some (limitedSink 0)) [] 1 [callA; callB] 2 1
           (failingRun ++ [AClose 0]) [ALog 1 9 None; AFlush 0; ALog 1 9 None]
           afterClose lateLog 0 1 true (Some ErrSink) callB).
  - vm_compute. reflexivity.
  - vm_compute. reflexivity.
  - vm_compute. reflexivity.
  - vm_compute. reflexivity.
Defined.
